(** * Contract-call codec: schema registry, signatures, selectors and the
    head/tail wire format.

    Shallow embedding of [accounts/abi/abi.go] (the registry [ABI] with
    [Pack], [Unpack], [UnpackIntoMap], [UnmarshalJSON], [MccmodById]) and of
    the method descriptor [Mccmod] ([Sig], [String], [Id]).  The type
    descriptor [Type], the argument encoder and decoder ([Arguments.Pack],
    [Arguments.Unpack]) and the hash primitive ([crypto.Keccak256]) are
    declared elsewhere; they are either taken as parameters or modelled
    from the specification, and marked as such. *)

From Stdlib Require Import ZArith Ascii String List.
From Stdlib.Strings Require Import Byte.
From stdpp Require Import base tactics option list strings pretty gmap fin_maps.

Local Open Scope nat_scope.

(** ** Errors and results *)

(** The errors the registry returns (the [fmt.Errorf] values of abi.go) and
    the error classes of the encoder and the decoder. *)
Inductive error : Type :=
  | ErrMccmodNotFound (name : string)
  | ErrEmptyOutput
  | ErrImproperOutput (data : list byte)
  | ErrNotLocated
  | ErrTooShort (len : nat)
  | ErrNoMccmodWithId (id : list byte)
  | SchemaError (what : string)
  | EncodingError (what : string)
  | DecodingError (what : string).

Inductive result (A : Type) : Type :=
  | Ok (a : A)
  | Err (e : error).
Arguments Ok {A} a.
Arguments Err {A} e.

(** Errors propagate through sequenced calls as Go's [if err != nil] does. *)
Global Instance result_ret : MRet result := λ A a, Ok a.
Global Instance result_bind : MBind result := λ A B k r,
  match r with
  | Ok a => k a
  | Err e => Err e
  end.
Global Instance result_fmap : FMap result := λ A B f r,
  match r with
  | Ok a => Ok (f a)
  | Err e => Err e
  end.

(** ** Type descriptors *)

#[local] Set Warnings "-register-all".

(** Modelled from the spec: the closed recursive variant [Type] of §3; the
    declaration of [Type] is missing from the sources. *)
Inductive Ty : Type :=
  | UnsignedInt (bits : nat)
  | SignedInt (bits : nat)
  | Address
  | BoolT
  | FixedBytes (n : nat)
  | DynamicBytes
  | StringT
  | Tuple (fields : list (string * Ty))
  | FixedArray (elem : Ty) (len : nat)
  | DynamicArray (elem : Ty).

(** [strings.Join]: the first element, then separator and element for each
    of the others. *)
Definition Join (elems : list string) (sep : string) : string :=
  match elems with
  | [] => EmptyString
  | e :: rest => foldl (λ acc s, acc +:+ sep +:+ s) e rest
  end.

(** Modelled from the spec: the canonical string of a type (§3, §4.4), for
    the missing [Type.String]: [uint<bits>], [int<bits>], [address], [bool], [bytes<n>], [bytes],
    [string], tuples as parenthesized comma-joined component types, arrays
    with a bracket suffix after the element type. *)
Fixpoint TypeString (t : Ty) : string :=
  match t with
  | UnsignedInt bits => "uint" +:+ pretty bits
  | SignedInt bits => "int" +:+ pretty bits
  | Address => "address"
  | BoolT => "bool"
  | FixedBytes n => "bytes" +:+ pretty n
  | DynamicBytes => "bytes"
  | StringT => "string"
  | Tuple fields =>
      "(" +:+ Join (map (λ f : string * Ty, TypeString f.2) fields) "," +:+ ")"
  | FixedArray elem len => TypeString elem +:+ "[" +:+ pretty len +:+ "]"
  | DynamicArray elem => TypeString elem +:+ "[]"
  end.

(** ** Arguments and methods *)

Record Argument : Type := {
  ArgName : string;
  ArgType : Ty;
  Indexed : bool
}.

Definition Arguments : Type := list Argument.

Record Mccmod : Type := {
  Name : string;
  Const : bool;
  Inputs : Arguments;
  Outputs : Arguments
}.

Record Event : Type := {
  EvName : string;
  Anonymous : bool;
  EvInputs : Arguments
}.

(** [for i, x := range xs { out[i] = f x }] on a pre-allocated slice. *)
Fixpoint range_assign {A} (f : A → string) (i : nat) (xs : list A)
    (out : list string) : list string :=
  match xs with
  | [] => out
  | x :: rest => range_assign f (S i) rest (<[i := f x]> out)
  end.

(** [[]byte(s)] *)
Definition bytes_of_string (s : string) : list byte := list_byte_of_string s.

(** [Mccmod.Sig] *)
Definition Sig (mccmod : Mccmod) : string :=
  let types := replicate (length (Inputs mccmod)) EmptyString in
  let types := range_assign (λ input, TypeString (ArgType input)) 0 (Inputs mccmod) types in
  Name mccmod +:+ "(" +:+ Join types "," +:+ ")".

(** [Mccmod.String] *)
Definition MccmodString (mccmod : Mccmod) : string :=
  let inputs := replicate (length (Inputs mccmod)) EmptyString in
  let inputs :=
    range_assign (λ input, TypeString (ArgType input) +:+ " " +:+ ArgName input)
      0 (Inputs mccmod) inputs in
  let outputs := replicate (length (Outputs mccmod)) EmptyString in
  let outputs :=
    range_assign
      (λ output,
         let s := TypeString (ArgType output) in
         if decide (0 < String.length (ArgName output))%nat
         then s +:+ " " +:+ ArgName output else s)
      0 (Outputs mccmod) outputs in
  let constant := if Const mccmod then "constant " else EmptyString in
  "function " +:+ Name mccmod +:+ "(" +:+ Join inputs ", " +:+ ") " +:+ constant
    +:+ "returns(" +:+ Join outputs ", " +:+ ")".

Section Selector.
(** The injected hash primitive ([crypto.Keccak256]). *)
Variable hash256 : list byte → list byte.

(** [Mccmod.Id] *)
Definition Id (mccmod : Mccmod) : list byte :=
  take 4 (hash256 (bytes_of_string (Sig mccmod))).
End Selector.

(** ** Words *)

Global Instance byte_eq_dec : EqDecision byte := Byte.byte_eq_dec.

Definition byte_of_Z (z : Z) : byte := default x00 (Byte.of_N (Z.to_N z)).
Definition Z_of_byte (b : byte) : Z := Z.of_N (Byte.to_N b).

(** The [n] low-order bytes of [z], most significant first; a negative [z]
    comes out in two's complement. *)
Fixpoint be_bytes (n : nat) (z : Z) : list byte :=
  match n with
  | O => []
  | S n' => be_bytes n' (z / 256) ++ [byte_of_Z (z mod 256)]
  end.

Definition be_to_Z (bs : list byte) : Z :=
  foldl (λ acc b, acc * 256 + Z_of_byte b)%Z 0%Z bs.

(** One 32-byte big-endian slot. *)
Definition word (z : Z) : list byte := be_bytes 32 z.
Global Arguments word : simpl never.

Definition word_max : Z := 2 ^ 256.

(** Reads the slot at [pos]; out of range is a decoding error. *)
Definition read_word (data : list byte) (pos : nat) : result Z :=
  if decide (pos + 32 ≤ length data)
  then Ok (be_to_Z (take 32 (drop pos data)))
  else Err (DecodingError "slot out of range").

(** Trailing zeros up to the next 32-byte boundary. *)
Definition pad_right (bs : list byte) : list byte :=
  bs ++ replicate ((32 - length bs mod 32) mod 32) x00.

(** ** Values *)

(** Modelled from the spec: the concrete values of §4.2 that the missing
    [Arguments.Pack] takes and [Arguments.Unpack] returns (integers,
    booleans, 20-byte addresses, byte sequences, strings, records for
    tuples and lists for arrays). *)
Inductive Value : Type :=
  | VInt (z : Z)
  | VBool (b : bool)
  | VAddress (a : list byte)
  | VFixedBytes (bs : list byte)
  | VBytes (bs : list byte)
  | VString (s : string)
  | VTuple (vs : list Value)
  | VList (vs : list Value).

(** Modelled from the spec: a type is dynamic iff it is [DynamicBytes],
    [String], [DynamicArray], or a tuple or fixed array containing at least
    one dynamic member, transitively (§3); the test the missing encoder
    and decoder branch on. *)
Fixpoint is_dynamic (t : Ty) : bool :=
  match t with
  | DynamicBytes | StringT | DynamicArray _ => true
  | Tuple fields => existsb (λ f : string * Ty, is_dynamic f.2) fields
  | FixedArray elem len => bool_decide (0 < len) && is_dynamic elem
  | _ => false
  end.

(** Modelled from the spec: the number of head bytes a member takes: one
    slot for a scalar or for the offset of a dynamic member, the
    concatenated slots of the members for a static tuple or array (§3); the
    size helper of the missing encoder and decoder. *)
Fixpoint head_size (t : Ty) : nat :=
  match t with
  | Tuple fields =>
      if existsb (λ f : string * Ty, is_dynamic f.2) fields then 32
      else sum_list (map (λ f : string * Ty, head_size f.2) fields)
  | FixedArray elem len =>
      if bool_decide (0 < len) && is_dynamic elem then 32
      else len * head_size elem
  | _ => 32
  end.

Definition valid_bits (bits : nat) : bool :=
  bool_decide (8 ≤ bits ≤ 256) && bool_decide (bits mod 8 = 0).

(** Modelled from the spec: a value fits its declared type (§3, §4.2):
    integers within the declared width, 20-byte addresses, [n] bytes for
    [FixedBytes n], one member per tuple component, [len] elements for a
    fixed array; lengths and element counts fit the length slot.  These are
    the checks of the missing [Arguments.Pack]. *)
Fixpoint well_typed (t : Ty) (v : Value) : bool :=
  match t, v with
  | UnsignedInt bits, VInt z =>
      valid_bits bits && bool_decide (0 ≤ z < 2 ^ Z.of_nat bits)%Z
  | SignedInt bits, VInt z =>
      valid_bits bits &&
      bool_decide (- 2 ^ (Z.of_nat bits - 1) ≤ z < 2 ^ (Z.of_nat bits - 1))%Z
  | Address, VAddress a => bool_decide (length a = 20)
  | BoolT, VBool _ => true
  | FixedBytes n, VFixedBytes bs =>
      bool_decide (1 ≤ n ≤ 32) && bool_decide (length bs = n)
  | DynamicBytes, VBytes bs => bool_decide (Z.of_nat (length bs) < word_max)%Z
  | StringT, VString s =>
      bool_decide (Z.of_nat (length (bytes_of_string s)) < word_max)%Z
  | Tuple fields, VTuple vs =>
      bool_decide (length fields = length vs) &&
      forallb id (zip_with (λ (f : string * Ty) v, well_typed f.2 v) fields vs)
  | FixedArray elem len, VList vs =>
      bool_decide (length vs = len) && forallb (well_typed elem) vs
  | DynamicArray elem, VList vs =>
      bool_decide (Z.of_nat (length vs) < word_max)%Z && forallb (well_typed elem) vs
  | _, _ => false
  end.

(** ** Encoder *)

(** Modelled from the spec: the head/tail discipline of §4.2 (the layout
    done by the missing [Arguments.Pack]) over members
    that are already encoded, each tagged with whether its type is dynamic.
    Two growing buffers; a static member goes into the head in place, a
    dynamic member leaves in the head the offset of its encoding (the total
    head length plus the tail's current length) and is appended to the
    tail. *)
Definition item_head_size (item : bool * list byte) : nat :=
  if item.1 then 32 else length item.2.

Definition head_total (items : list (bool * list byte)) : nat :=
  sum_list (map item_head_size items).

Definition head_tail_step (total : nat) (bufs : list byte * list byte)
    (item : bool * list byte) : list byte * list byte :=
  let '(head, tail) := bufs in
  if item.1
  then (head ++ word (Z.of_nat (total + length tail)), tail ++ item.2)
  else (head ++ item.2, tail).

Definition head_tail (items : list (bool * list byte)) : list byte :=
  let '(head, tail) := foldl (head_tail_step (head_total items)) ([], []) items in
  head ++ tail.

(** Modelled from the spec: the per-type encoding rules of §4.2, for the
    missing packing of single values. *)
Fixpoint enc (t : Ty) (v : Value) : list byte :=
  match t, v with
  | UnsignedInt _, VInt z | SignedInt _, VInt z => word z
  | BoolT, VBool b => word (if b then 1 else 0)
  | Address, VAddress a => replicate (32 - length a) x00 ++ a
  | FixedBytes _, VFixedBytes bs => bs ++ replicate (32 - length bs) x00
  | DynamicBytes, VBytes bs => word (Z.of_nat (length bs)) ++ pad_right bs
  | StringT, VString s =>
      let bs := bytes_of_string s in
      word (Z.of_nat (length bs)) ++ pad_right bs
  | Tuple fields, VTuple vs =>
      head_tail (zip_with (λ (f : string * Ty) v, (is_dynamic f.2, enc f.2 v)) fields vs)
  | FixedArray elem _, VList vs =>
      head_tail (map (λ v, (is_dynamic elem, enc elem v)) vs)
  | DynamicArray elem, VList vs =>
      word (Z.of_nat (length vs)) ++
      head_tail (map (λ v, (is_dynamic elem, enc elem v)) vs)
  | _, _ => []
  end.

Definition args_well_typed (arguments : Arguments) (values : list Value) : bool :=
  forallb id (zip_with (λ a v, well_typed (ArgType a) v) arguments values).

(** Modelled from the spec: the encoder "Pack" of §4.2, for the missing
    [Arguments.Pack]: the checks first
    (value count, then every value against its type), so that an error
    leaves no partial output; then the head/tail layout over the
    arguments. *)
Definition ArgumentsPack (arguments : Arguments) (values : list Value)
    : result (list byte) :=
  if decide (length values ≠ length arguments)
  then Err (EncodingError "argument count mismatch")
  else if negb (args_well_typed arguments values)
  then Err (EncodingError "value incompatible with its type")
  else Ok (head_tail
             (zip_with (λ a v, (is_dynamic (ArgType a), enc (ArgType a) v))
                arguments values)).

(** ** Decoder *)

Definition decoder : Type := list byte → result Value.

(** Modelled from the spec: one member of a head region (§4.3), for the
    missing decoder: a static
    member is decoded in place at the cursor; for a dynamic member the slot
    at the cursor is an offset from the start of the region, and the member
    is decoded there.  An offset outside the bytes is a decoding error. *)
Definition dec_item (item : bool * nat * decoder) (data : list byte) (pos : nat)
    : result Value :=
  let '(dyn, _, d) := item in
  if dyn then
    off ← read_word data pos;
    if decide (off ≤ Z.of_nat (length data))%Z
    then d (drop (Z.to_nat off) data)
    else Err (DecodingError "offset out of range")
  else d (drop pos data).

(** The members in order, the cursor advancing past each member's head. *)
Fixpoint dec_items (items : list (bool * nat * decoder)) (data : list byte)
    (pos : nat) : result (list Value) :=
  match items with
  | [] => Ok []
  | item :: rest =>
      v ← dec_item item data pos;
      vs ← dec_items rest data (pos + item.1.2);
      Ok (v :: vs)
  end.

(** A length slot followed by that many bytes. *)
Definition dec_bytes (data : list byte) : result (list byte) :=
  len ← read_word data 0;
  if decide (32 + len ≤ Z.of_nat (length data))%Z
  then Ok (take (Z.to_nat len) (drop 32 data))
  else Err (DecodingError "length out of range").

(** Modelled from the spec: the per-type decoding of §4.3, for the missing
    unpacking of single values; [data] starts at the value. *)
Fixpoint dec (t : Ty) (data : list byte) : result Value :=
  match t with
  | UnsignedInt _ => w ← read_word data 0; Ok (VInt w)
  | SignedInt _ =>
      w ← read_word data 0;
      Ok (VInt (if decide (2 ^ 255 ≤ w)%Z then w - word_max else w)%Z)
  | BoolT =>
      w ← read_word data 0;
      if decide (w = 0)%Z then Ok (VBool false)
      else if decide (w = 1)%Z then Ok (VBool true)
      else Err (DecodingError "improperly encoded boolean")
  | Address =>
      if decide (32 ≤ length data)
      then Ok (VAddress (drop 12 (take 32 data)))
      else Err (DecodingError "slot out of range")
  | FixedBytes n =>
      if decide (32 ≤ length data)
      then Ok (VFixedBytes (take n (take 32 data)))
      else Err (DecodingError "slot out of range")
  | DynamicBytes => bs ← dec_bytes data; Ok (VBytes bs)
  | StringT => bs ← dec_bytes data; Ok (VString (string_of_list_byte bs))
  | Tuple fields =>
      vs ← dec_items
              (map (λ f : string * Ty, (is_dynamic f.2, head_size f.2, dec f.2)) fields)
              data 0;
      Ok (VTuple vs)
  | FixedArray elem len =>
      vs ← dec_items (replicate len (is_dynamic elem, head_size elem, dec elem)) data 0;
      Ok (VList vs)
  | DynamicArray elem =>
      n ← read_word data 0;
      if decide (n * Z.of_nat (head_size elem) ≤ Z.of_nat (length data) - 32)%Z
      then
        vs ← dec_items
                (replicate (Z.to_nat n) (is_dynamic elem, head_size elem, dec elem))
                (drop 32 data) 0;
        Ok (VList vs)
      else Err (DecodingError "element count out of range")
  end.

(** Modelled from the spec: structural decoding of an argument schema
    (§4.3), the body of the missing [Arguments.Unpack]: one head member per
    argument, in order. *)
Definition UnpackValues (arguments : Arguments) (data : list byte)
    : result (list Value) :=
  dec_items
    (map (λ a, (is_dynamic (ArgType a), head_size (ArgType a), dec (ArgType a)))
       arguments)
    data 0.

(** Modelled from the spec: the decoder "Unpack" of §4.3, for the missing
    [Arguments.Unpack]: the length guard
    (empty input, length not a multiple of 32) before structural
    decoding. *)
Definition ArgumentsUnpack (arguments : Arguments) (data : list byte)
    : result (list Value) :=
  if decide (length data = 0)
  then Err (DecodingError "empty input")
  else if decide (length data mod 32 ≠ 0)
  then Err (DecodingError "length not a multiple of 32")
  else UnpackValues arguments data.

(** Modelled from the spec: the name-keyed form of §4.3, for the missing
    [Arguments.UnpackIntoMap]: each decoded value
    goes under its argument's declared name; an argument with an empty name
    is not addressable and gets no entry. *)
Fixpoint values_into_map (v : gmap string Value) (arguments : Arguments)
    (values : list Value) : gmap string Value :=
  match arguments, values with
  | a :: arguments', x :: values' =>
      values_into_map
        (if decide (ArgName a = EmptyString) then v else <[ArgName a := x]> v)
        arguments' values'
  | _, _ => v
  end.

Definition ArgumentsUnpackIntoMap (v : gmap string Value) (arguments : Arguments)
    (data : list byte) : result (gmap string Value) :=
  values ← ArgumentsUnpack arguments data;
  Ok (values_into_map v arguments values).

(** ** The registry *)

Record ABI : Type := {
  Constructor : Mccmod;
  Mccmods : gmap string Mccmod;
  Events : gmap string Event
}.

Section Registry.
(** [crypto.Keccak256], and the argument-level encoder and decoders the
    registry delegates to ([Arguments.Pack], [Arguments.Unpack],
    [Arguments.UnpackIntoMap]). *)
Variable hash256 : list byte → list byte.
Variable argsPack : Arguments → list Value → result (list byte).
Variable argsUnpack : Arguments → list byte → result (list Value).
Variable argsUnpackIntoMap :
  gmap string Value → Arguments → list byte → result (gmap string Value).

(** [ABI.Pack] *)
Definition Pack (abi : ABI) (name : string) (args : list Value)
    : result (list byte) :=
  if decide (name = EmptyString) then
    arguments ← argsPack (Inputs (Constructor abi)) args;
    Ok arguments
  else
    match Mccmods abi !! name with
    | None => Err (ErrMccmodNotFound name)
    | Some mccmod =>
        arguments ← argsPack (Inputs mccmod) args;
        Ok (Id hash256 mccmod ++ arguments)
    end.

(** [ABI.Unpack]; the decoded values are the result instead of being
    stored through [v]. *)
Definition Unpack (abi : ABI) (name : string) (data : list byte)
    : result (list Value) :=
  if decide (length data = 0) then Err ErrEmptyOutput
  else
    match Mccmods abi !! name with
    | Some mccmod =>
        if decide (length data mod 32 ≠ 0) then Err (ErrImproperOutput data)
        else argsUnpack (Outputs mccmod) data
    | None =>
        match Events abi !! name with
        | Some event => argsUnpack (EvInputs event) data
        | None => Err ErrNotLocated
        end
    end.

(** [ABI.UnpackIntoMap]; the map [v] filled in is the result. *)
Definition UnpackIntoMap (abi : ABI) (v : gmap string Value) (name : string)
    (data : list byte) : result (gmap string Value) :=
  if decide (length data = 0) then Err ErrEmptyOutput
  else
    match Mccmods abi !! name with
    | Some mccmod =>
        if decide (length data mod 32 ≠ 0) then Err (ErrImproperOutput data)
        else argsUnpackIntoMap v (Outputs mccmod) data
    | None =>
        match Events abi !! name with
        | Some event => argsUnpackIntoMap v (EvInputs event) data
        | None => Err ErrNotLocated
        end
    end.

(** The loop of [MccmodById] over the entries of the map in the order
    [range] yields them: the first entry whose id matches. *)
Fixpoint range_find (id : list byte) (entries : list (string * Mccmod))
    : option Mccmod :=
  match entries with
  | [] => None
  | (_, mccmod) :: rest =>
      if decide (Id hash256 mccmod = id) then Some mccmod
      else range_find id rest
  end.

(** [ABI.MccmodById]; [order] is the order in which [range abi.Mccmods]
    yields the entries, which Go leaves unspecified. *)
Definition MccmodById (order : list (string * Mccmod)) (sigdata : list byte)
    : result Mccmod :=
  if decide (length sigdata < 4) then Err (ErrTooShort (length sigdata))
  else
    match range_find (take 4 sigdata) order with
    | Some mccmod => Ok mccmod
    | None => Err (ErrNoMccmodWithId (take 4 sigdata))
    end.
End Registry.

(** An iteration order of a map: its entries, each once, in any order. *)
Definition range_order {V} (m : gmap string V) (order : list (string * V)) : Prop :=
  order ≡ₚ map_to_list m.

(** The error classes of §7 for the errors of the registry. *)
Definition is_decoding_error (e : error) : bool :=
  match e with
  | ErrEmptyOutput | ErrImproperOutput _ | DecodingError _ => true
  | _ => false
  end.

Definition is_not_found_error (e : error) : bool :=
  match e with
  | ErrMccmodNotFound _ | ErrNotLocated | ErrNoMccmodWithId _ => true
  | _ => false
  end.

(** ** Loading a schema document *)

(** One entry of the document after [json.Unmarshal]. *)
Record Field : Type := {
  FType : string;
  FName : string;
  FConstant : bool;
  FAnonymous : bool;
  FInputs : Arguments;
  FOutputs : Arguments
}.

(** [fmt.Sprintf("%s%d", name, idx)] *)
Definition overloaded (name : string) (idx : nat) : string :=
  (name +:+ pretty idx)%string.

(** The loop [for idx := 0; ok; idx++] of [UnmarshalJSON], entered at [idx]
    while the current name is taken.  The names tried are pairwise
    different, so the loop leaves after at most [size m] rounds; [fuel] is
    that bound. *)
Fixpoint overload_loop {V} (m : gmap string V) (base : string) (idx fuel : nat)
    : string :=
  let name := overloaded base idx in
  match fuel with
  | O => name
  | S fuel' =>
      if decide (is_Some (m !! name)) then overload_loop m base (S idx) fuel'
      else name
  end.

Definition resolve_name {V} (m : gmap string V) (base : string) : string :=
  if decide (is_Some (m !! base)) then overload_loop m base 0 (size m) else base.

Definition is_function (field : Field) : Prop :=
  FType field = "function"%string ∨ FType field = EmptyString.
Definition is_event (field : Field) : Prop := FType field = "event"%string.
Definition is_constructor (field : Field) : Prop :=
  FType field = "constructor"%string.

Global Instance is_function_dec field : Decision (is_function field).
Proof. unfold is_function. apply _. Defined.
Global Instance is_event_dec field : Decision (is_event field).
Proof. unfold is_event. apply _. Defined.
Global Instance is_constructor_dec field : Decision (is_constructor field).
Proof. unfold is_constructor. apply _. Defined.

(** The body of the loop over the fields in [UnmarshalJSON]. *)
Definition UnmarshalJSON_field (abi : ABI) (field : Field) : ABI :=
  if decide (is_constructor field) then
    {| Constructor := {| Name := EmptyString; Const := false;
                         Inputs := FInputs field; Outputs := [] |};
       Mccmods := Mccmods abi;
       Events := Events abi |}
  else if decide (is_function field) then
    let name := resolve_name (Mccmods abi) (FName field) in
    {| Constructor := Constructor abi;
       Mccmods := <[name := {| Name := name; Const := FConstant field;
                               Inputs := FInputs field;
                               Outputs := FOutputs field |}]> (Mccmods abi);
       Events := Events abi |}
  else if decide (is_event field) then
    let name := resolve_name (Events abi) (FName field) in
    {| Constructor := Constructor abi;
       Mccmods := Mccmods abi;
       Events := <[name := {| EvName := name; Anonymous := FAnonymous field;
                              EvInputs := FInputs field |}]> (Events abi) |}
  else abi.

(** [ABI.UnmarshalJSON] on the decoded fields: both maps are made afresh,
    the constructor of the receiver stays unless the document has one. *)
Definition UnmarshalJSON (abi : ABI) (fields : list Field) : ABI :=
  foldl UnmarshalJSON_field
    {| Constructor := Constructor abi; Mccmods := ∅; Events := ∅ |} fields.

Definition zero_Mccmod : Mccmod :=
  {| Name := EmptyString; Const := false; Inputs := []; Outputs := [] |}.
Definition zero_ABI : ABI :=
  {| Constructor := zero_Mccmod; Mccmods := ∅; Events := ∅ |}.

(** ** Parsing type notations *)

Fixpoint digits_to_nat (s : string) (acc : nat) : option nat :=
  match s with
  | EmptyString => Some acc
  | String c s' => d ← Ascii.is_nat c; digits_to_nat s' (10 * acc + d)
  end.

Definition parse_nat (s : string) : option nat :=
  if decide (s = EmptyString) then None else digits_to_nat s 0.

(** The notation up to its first bracket, and the array suffixes. *)
Fixpoint split_base (s : string) : string * string :=
  match s with
  | EmptyString => (EmptyString, EmptyString)
  | String c s' =>
      if decide (c = "["%char) then (EmptyString, s)
      else let '(b, r) := split_base s' in (String c b, r)
  end.

(** The array suffixes from left to right: [None] for [[]], [Some n] for
    [[n]]; [cur] holds the digits read inside an open bracket. *)
Fixpoint parse_suffixes (s : string) (cur : option string)
    : result (list (option nat)) :=
  match s, cur with
  | EmptyString, None => Ok []
  | EmptyString, Some _ => Err (SchemaError "malformed array brackets")
  | String c s', None =>
      if decide (c = "["%char) then parse_suffixes s' (Some EmptyString)
      else Err (SchemaError "malformed array brackets")
  | String c s', Some digits =>
      if decide (c = "]"%char) then
        sfx ← (if decide (digits = EmptyString) then Ok None
               else match parse_nat digits with
                    | Some n => Ok (Some n)
                    | None => Err (SchemaError "malformed array brackets")
                    end);
        rest ← parse_suffixes s' None;
        Ok (sfx :: rest)
      else parse_suffixes s' (Some (digits +:+ String c EmptyString)%string)
  end.

Fixpoint strip_prefix (p s : string) : option string :=
  match p, s with
  | EmptyString, _ => Some s
  | String a p', String b s' => if decide (a = b) then strip_prefix p' s' else None
  | _, _ => None
  end.

Definition parse_width (digits : string) : result nat :=
  if decide (digits = EmptyString) then Ok 256
  else match parse_nat digits with
       | Some bits =>
           if valid_bits bits then Ok bits
           else Err (SchemaError "bit width out of range")
       | None => Err (SchemaError "unrecognized type")
       end.

Definition parse_base (base : string) (components : list (string * Ty))
    : result Ty :=
  if decide (base = "address"%string) then Ok Address
  else if decide (base = "bool"%string) then Ok BoolT
  else if decide (base = "string"%string) then Ok StringT
  else if decide (base = "bytes"%string) then Ok DynamicBytes
  else if decide (base = "tuple"%string) then Ok (Tuple components)
  else match strip_prefix "uint" base with
  | Some digits => bits ← parse_width digits; Ok (UnsignedInt bits)
  | None =>
  match strip_prefix "int" base with
  | Some digits => bits ← parse_width digits; Ok (SignedInt bits)
  | None =>
  match strip_prefix "bytes" base with
  | Some digits =>
      match parse_nat digits with
      | Some n =>
          if bool_decide (1 ≤ n ≤ 32) then Ok (FixedBytes n)
          else Err (SchemaError "byte width out of range")
      | None => Err (SchemaError "unrecognized type")
      end
  | None => Err (SchemaError "unrecognized type")
  end end end.

Definition wrap_array (elem : Ty) (sfx : option nat) : Ty :=
  match sfx with
  | None => DynamicArray elem
  | Some n => FixedArray elem n
  end.

(** Modelled from the spec: parsing a type's textual notation (§4.1; the
    parser [NewType] is missing from the sources): [uint]/[int] without a
    width are 256 bits wide, [tuple] takes its components from the caller, and in
    [T[5][]] the suffix next to the base is the innermost array. *)
Definition NewType (t : string) (components : list (string * Ty)) : result Ty :=
  let '(base, brackets) := split_base t in
  suffixes ← parse_suffixes brackets None;
  elem ← parse_base base components;
  Ok (foldl wrap_array elem suffixes).

(** An argument as the document has it: [{name, type, components?, indexed}]. *)
Inductive RawArgument : Type :=
  | mkRawArgument (name type : string) (components : list RawArgument)
      (indexed : bool).

(** Modelled from the spec: an argument of the document becomes an
    [Argument], its type parsed with the components as tuple members
    (§4.5); stands for the missing [Argument.UnmarshalJSON]. *)
Fixpoint parse_argument (raw : RawArgument) : result Argument :=
  match raw with
  | mkRawArgument name type components indexed =>
      members ←
        (fix go (cs : list RawArgument) : result (list (string * Ty)) :=
           match cs with
           | [] => Ok []
           | c :: cs' =>
               a ← parse_argument c;
               rest ← go cs';
               Ok ((ArgName a, ArgType a) :: rest)
           end) components;
      t ← NewType type members;
      Ok {| ArgName := name; ArgType := t; Indexed := indexed |}
  end.

Fixpoint parse_arguments (raws : list RawArgument) : result Arguments :=
  match raws with
  | [] => Ok []
  | r :: raws' =>
      a ← parse_argument r;
      rest ← parse_arguments raws';
      Ok (a :: rest)
  end.

(** An entry of the document (§6). *)
Record RawField : Type := {
  RType : string;
  RName : string;
  RConstant : bool;
  RAnonymous : bool;
  RInputs : list RawArgument;
  ROutputs : list RawArgument
}.

Definition parse_field (raw : RawField) : result Field :=
  inputs ← parse_arguments (RInputs raw);
  outputs ← parse_arguments (ROutputs raw);
  Ok {| FType := RType raw; FName := RName raw; FConstant := RConstant raw;
        FAnonymous := RAnonymous raw; FInputs := inputs; FOutputs := outputs |}.

Fixpoint parse_fields (raws : list RawField) : result (list Field) :=
  match raws with
  | [] => Ok []
  | r :: raws' =>
      f ← parse_field r;
      rest ← parse_fields raws';
      Ok (f :: rest)
  end.

(** [JSON]: decode the document into fields, then build the registry from a
    zero [ABI]. *)
Definition JSON (document : list RawField) : result ABI :=
  fields ← parse_fields document;
  Ok (UnmarshalJSON zero_ABI fields).

(** ** The schema of the method tests *)

Definition raw (name type : string) : RawArgument :=
  mkRawArgument name type [] false.

Definition raw_xy (name type : string) : RawArgument :=
  mkRawArgument name type [raw "x" "uint256"; raw "y" "uint256"] false.

Definition raw_function (name : string) (constant : bool)
    (inputs outputs : list RawArgument) : RawField :=
  {| RType := "function"; RName := name; RConstant := constant;
     RAnonymous := false; RInputs := inputs; ROutputs := outputs |}.

(** [mccmoddata] of the method tests, entry by entry. *)
Definition mccmoddata : list RawField :=
  [ raw_function "balance" true [] [];
    raw_function "send" false [raw "amount" "uint256"] [];
    raw_function "transfer" false
      [raw "from" "address"; raw "to" "address"; raw "value" "uint256"]
      [raw "success" "bool"];
    raw_function "tuple" false [raw_xy "a" "tuple"] [];
    raw_function "tupleSlice" false [raw_xy "a" "tuple[]"] [];
    raw_function "tupleArray" false [raw_xy "a" "tuple[5]"] [];
    raw_function "complexTuple" false [raw_xy "a" "tuple[5][]"] [] ].

(** The method registered under [name] by a loaded document, if any. *)
Definition lookup_mccmod (r : result ABI) (name : string) : option Mccmod :=
  match r with
  | Ok abi => Mccmods abi !! name
  | Err _ => None
  end.

(** A stand-in for the hash primitive, to run the registry on examples: the
    first 32 bytes of the input, zero-padded. *)
Definition prefix_hash (bs : list byte) : list byte :=
  take 32 (bs ++ replicate 32 x00).

(** ** The signature as the specification words it *)

(** §4.4: [name(type1,type2,...)] over the canonical strings of the input
    types, and the selector as the first 4 bytes of the hash of its UTF-8
    bytes. *)
Definition spec_signature (name : string) (types : list Ty) : string :=
  (name ++ "(" ++ String.concat "," (map TypeString types) ++ ")")%string.

Definition utf8 (s : string) : list byte := list_byte_of_string s.

Definition spec_selector (hash256 : list byte → list byte) (name : string)
    (types : list Ty) : list byte :=
  firstn 4 (hash256 (utf8 (spec_signature name types))).

(** The rendered form of a method as the specification words it: inputs as
    [type name] pairs, an output with its name when it has one. *)
Definition render_input (a : Argument) : string :=
  (TypeString (ArgType a) ++ " " ++ ArgName a)%string.

Definition render_output (a : Argument) : string :=
  if decide (ArgName a = EmptyString) then TypeString (ArgType a)
  else (TypeString (ArgType a) ++ " " ++ ArgName a)%string.

(** ** A small registry to run the operations on *)

Definition argument (name : string) (t : Ty) : Argument :=
  {| ArgName := name; ArgType := t; Indexed := false |}.

Definition send_mccmod : Mccmod :=
  {| Name := "send"; Const := false;
     Inputs := [argument "amount" (UnsignedInt 256)];
     Outputs := [argument "success" BoolT] |}.

Definition send_event : Event :=
  {| EvName := "send"; Anonymous := false;
     EvInputs := [argument "amount" (UnsignedInt 256)] |}.

Definition sent_event : Event :=
  {| EvName := "sent"; Anonymous := false;
     EvInputs := [argument "amount" (UnsignedInt 256)] |}.

(** A constructor taking a supply, one method [send], and the events
    [send] (same name as the method) and [sent]. *)
Definition example_ABI : ABI :=
  {| Constructor := {| Name := EmptyString; Const := false;
                       Inputs := [argument "supply" (UnsignedInt 256)];
                       Outputs := [] |};
     Mccmods := {[ "send"%string := send_mccmod ]};
     Events := <["send"%string := send_event]> {[ "sent"%string := sent_event ]} |}.

(** ** The disambiguation policy as a fold *)

(** The names an entry declared [base] can be registered under, in the
    order they are tried: [base], [base0], [base1], ... *)
Definition candidate (base : string) (k : nat) : string :=
  match k with
  | O => base
  | S idx => overloaded base idx
  end.

(** Registering one declared entry in a map: resolve its name, then store
    what [build] makes of the resolved name and the entry. *)
Definition register {P V} (build : string → P → V) (m : gmap string V)
    (entry : string * P) : gmap string V :=
  let name := resolve_name m entry.1 in
  <[name := build name entry.2]> m.

Definition build_mccmod (name : string) (field : Field) : Mccmod :=
  {| Name := name; Const := FConstant field;
     Inputs := FInputs field; Outputs := FOutputs field |}.

Definition build_event (name : string) (field : Field) : Event :=
  {| EvName := name; Anonymous := FAnonymous field; EvInputs := FInputs field |}.

Definition declared (fields : list Field) : list (string * Field) :=
  map (λ field, (FName field, field)) fields.

(** No entry declared under another name competes with [name] for a
    registry key. *)
Definition non_interfering (name : string) (fields : list Field) : Prop :=
  ∀ g, g ∈ fields → FName g ≠ name →
    ∀ i j, candidate (FName g) i ≠ candidate name j.

(** How many entries of [fields] are declared [name]. *)
Definition occurrences (name : string) (fields : list Field) : nat :=
  length (filter (λ g, FName g = name) fields).

(** ** Documents with repeated names *)

Definition function_field (name : string) (constant : bool)
    (inputs outputs : Arguments) : Field :=
  {| FType := "function"; FName := name; FConstant := constant;
     FAnonymous := false; FInputs := inputs; FOutputs := outputs |}.

Definition event_field (name : string) (inputs : Arguments) : Field :=
  {| FType := "event"; FName := name; FConstant := false;
     FAnonymous := false; FInputs := inputs; FOutputs := [] |}.

Definition constructor_field (inputs : Arguments) : Field :=
  {| FType := "constructor"; FName := EmptyString; FConstant := false;
     FAnonymous := false; FInputs := inputs; FOutputs := [] |}.

Definition foo_address : Field :=
  function_field "foo" false [argument "to" Address] [].
Definition foo_bool : Field :=
  function_field "foo" false [argument "flag" BoolT] [].
Definition foo_string : Field :=
  function_field "foo" false [argument "memo" StringT] [].
Definition foo0_uint : Field :=
  function_field "foo0" false [argument "amount" (UnsignedInt 256)] [].
Definition bar_uint : Field :=
  function_field "bar" false [argument "amount" (UnsignedInt 256)] [].
Definition foo_logged : Field := event_field "foo" [argument "who" Address].

(** Three methods declared [foo], with an event [foo], a method [bar] and
    a constructor in between. *)
Definition overloaded_fields : list Field :=
  [ foo_address; foo_logged; bar_uint; foo_bool; constructor_field [];
    foo_logged; foo_string ].

(** A method declared [foo0] ahead of two methods declared [foo]. *)
Definition clashing_fields : list Field := [ foo0_uint; foo_address; foo_bool ].

Definition foo_first : Field :=
  function_field "foo" false [argument "amount" (UnsignedInt 256)] [].
Definition foo_second : Field :=
  function_field "foo" true [argument "amount" (UnsignedInt 256)] [].

(** Two methods declared [foo] with the same inputs, alone and behind a
    method declared [foo0]. *)
Definition twin_fields : list Field := [ foo_first; foo_logged; foo_second ].
Definition clashing_twin_fields : list Field := [ foo0_uint; foo_first; foo_second ].

(** ** The layout of a head/tail region, member by member *)

(** The head of a region whose first dynamic member lies at [off]: static
    members in place, a slot with the offset for each dynamic member. *)
Fixpoint heads (off : nat) (items : list (bool * list byte)) : list byte :=
  match items with
  | [] => []
  | (true, e) :: rest => word (Z.of_nat off) ++ heads (off + length e) rest
  | (false, e) :: rest => e ++ heads off rest
  end.

(** The tail of a region: the dynamic members one after the other. *)
Fixpoint tails (items : list (bool * list byte)) : list byte :=
  match items with
  | [] => []
  | (true, e) :: rest => e ++ tails rest
  | (false, _) :: rest => tails rest
  end.

(** Members with their decoders, their encodings and their values: each
    decoder gives back the value from the encoding, whatever follows it;
    a static member fills its head size, a dynamic one takes one slot. *)
Inductive Coded :
    list (bool * nat * decoder) → list (bool * list byte) → list Value → Prop :=
  | Coded_nil : Coded [] [] []
  | Coded_cons (dyn : bool) (hs : nat) (d : decoder) (e : list byte) (v : Value)
      ds es vs :
      ((Z.of_nat (length e) < word_max)%Z → ∀ rest, d (e ++ rest) = Ok v) →
      (if dyn then hs = 32 else length e = hs) →
      Coded ds es vs →
      Coded ((dyn, hs, d) :: ds) ((dyn, e) :: es) (v :: vs).

(** ** A schema with nested dynamic members, and values for it *)

Definition nested_schema : Arguments :=
  [ argument "a" (UnsignedInt 256);
    argument "s" StringT;
    argument "l" (DynamicArray (Tuple [("x"%string, SignedInt 8);
                                       ("y"%string, DynamicBytes)]));
    argument "f" (FixedArray BoolT 2);
    argument "w" Address ].

Definition nested_values : list Value :=
  [ VInt 5;
    VString "hello";
    VList [ VTuple [VInt (-1); VBytes [x01; x02]];
            VTuple [VInt 3; VBytes []] ];
    VList [VBool true; VBool false];
    VAddress (replicate 20 xff) ].

(** ** Lookup of events by topic *)

(** [common.Hash]: a value of 32 bytes; [Bytes] is [Hash.Bytes]. *)
Record Hash : Type := mkHash {
  Bytes : list byte;
  Bytes_length : length Bytes = 32
}.

(** The outcome of [EventByID]: the event, or the error naming the topic. *)
Inductive event_result : Type :=
  | EventFound (event : Event)
  | NoEventWithId (topic : Hash).

Section Topics.
(** [Event.Id], a [common.Hash]; it is declared with the events, outside
    abi.go. *)
Variable eventId : Event → Hash.

(** The loop of [EventByID] over the entries of the map in the order
    [range] yields them; [bytes.Equal] on the bytes of the two hashes. *)
Fixpoint range_find_event (topic : Hash) (entries : list (string * Event))
    : option Event :=
  match entries with
  | [] => None
  | (_, event) :: rest =>
      if decide (Bytes (eventId event) = Bytes topic) then Some event
      else range_find_event topic rest
  end.

(** [ABI.EventByID]; [order] is the order in which [range abi.Events]
    yields the entries. *)
Definition EventByID (order : list (string * Event)) (topic : Hash)
    : event_result :=
  match range_find_event topic order with
  | Some event => EventFound event
  | None => NoEventWithId topic
  end.
End Topics.

(** ** Entry kinds and the constructor *)

(** What [UnmarshalJSON] stores for a constructor entry: its inputs only. *)
Definition constructor_of (field : Field) : Mccmod :=
  {| Name := EmptyString; Const := false; Inputs := FInputs field; Outputs := [] |}.

(** The entry kinds the switch of [UnmarshalJSON] has a case for. *)
Definition known_kind (field : Field) : Prop :=
  is_constructor field ∨ is_function field ∨ is_event field.

Global Instance known_kind_dec field : Decision (known_kind field).
Proof. unfold known_kind. apply _. Defined.

(** ** Further registries to run the operations on *)

Definition sendAll_mccmod : Mccmod :=
  {| Name := "sendAll"; Const := false; Inputs := []; Outputs := [] |}.

(** An entry of a kind the loader has no case for. *)
Definition fallback_field : Field :=
  {| FType := "fallback"; FName := "foo"; FConstant := false;
     FAnonymous := false; FInputs := []; FOutputs := [] |}.

(** A method declared [foo7], which competes with [foo] only from the
    ninth entry declared [foo] on. *)
Definition foo7_uint : Field :=
  function_field "foo7" false [argument "amount" (UnsignedInt 256)] [].

(** Two methods declared [foo] with the same inputs behind [foo7]. *)
Definition twin_fields_behind_foo7 : list Field :=
  [ foo7_uint; foo_first; foo_logged; foo_second ].

(** A registry with two methods whose ids agree under the hash stand-in:
    the signatures [send(uint256)] and [sendAll()] start with the same 4
    bytes. *)
Definition colliding_ABI : ABI :=
  {| Constructor := zero_Mccmod;
     Mccmods := <["sendAll"%string := sendAll_mccmod]> {[ "send"%string := send_mccmod ]};
     Events := ∅ |}.

(** A hash whose values all start with the same 4 bytes. *)
Definition constant_hash (bs : list byte) : list byte := replicate 32 x00.

(** The head bytes of a schema: the head sizes of its arguments. *)
Definition schema_head_size (arguments : Arguments) : nat :=
  sum_list (map (λ a, head_size (ArgType a)) arguments).

(** * Properties *)

(** ** Slices filled by index, and joined strings *)

Lemma range_assign_app {A} (f : A → string) (xs : list A) :
  ∀ (done todo rest : list string),
    length todo = length xs →
    range_assign f (length done) xs (done ++ todo ++ rest) = done ++ map f xs ++ rest.
Proof.
  induction xs as [|x xs IH]; intros pre todo rest Hlen.
  - destruct todo; [done | discriminate].
  - destruct todo as [|t todo]; [discriminate|]. simpl in *.
    rewrite insert_app_r_alt, Nat.sub_diag by lia. simpl.
    specialize (IH (pre ++ [f x]) todo rest).
    rewrite length_app in IH. simpl in IH.
    rewrite Nat.add_1_r, <- !(assoc_L (++)) in IH. simpl in IH.
    apply IH. lia.
Qed.

Lemma range_assign_map {A} (f : A → string) (xs : list A) :
  range_assign f 0 xs (replicate (length xs) EmptyString) = map f xs.
Proof.
  pose proof (range_assign_app f xs [] (replicate (length xs) EmptyString) []) as H.
  simpl in H. rewrite !app_nil_r in H. apply H. by rewrite length_replicate.
Qed.

Lemma append_assoc (a b c : string) : ((a ++ b) ++ c = a ++ (b ++ c))%string.
Proof.
  induction a as [|x a IH]; [done|].
  change (String x ((a ++ b) ++ c) = String x (a ++ (b ++ c)))%string.
  by f_equal.
Qed.

Lemma concat_cons_app (sep a b : string) (rest : list string) :
  String.concat sep ((a ++ b)%string :: rest) = (a ++ String.concat sep (b :: rest))%string.
Proof.
  destruct rest as [|c rest]; [done|].
  change ((a ++ b) ++ sep ++ String.concat sep (c :: rest) =
          a ++ b ++ sep ++ String.concat sep (c :: rest))%string.
  by rewrite append_assoc.
Qed.

Lemma Join_concat (elems : list string) (sep : string) :
  Join elems sep = String.concat sep elems.
Proof.
  destruct elems as [|e rest]; [done|]. simpl Join.
  revert e. induction rest as [|x rest IH]; intros e; [done|].
  simpl foldl. rewrite IH, !concat_cons_app. done.
Qed.

Lemma Sig_spec (mccmod : Mccmod) :
  Sig mccmod = spec_signature (Name mccmod) (map ArgType (Inputs mccmod)).
Proof.
  unfold Sig, spec_signature.
  by rewrite range_assign_map, Join_concat, map_map.
Qed.

Lemma Id_length (hash256 : list byte → list byte) (mccmod : Mccmod) :
  (∀ bs, length (hash256 bs) = 32) → length (Id hash256 mccmod) = 4.
Proof. intros H. unfold Id. rewrite length_take, H. done. Qed.

Lemma prefix_hash_length (bs : list byte) : length (prefix_hash bs) = 32.
Proof.
  unfold prefix_hash. rewrite length_take, length_app, length_replicate. lia.
Qed.

(** ** Signatures and selectors *)

(** C4: the selector of a method is the first 4 bytes of the hash of the
    UTF-8 bytes of [name(type1,type2,...)], the signature built from the
    canonical strings of its input types; signature and selector are
    functions of the method's name and input types alone, so every call on
    the same method returns the same values, and the selector has 4 bytes
    when the hash has 32. *)
Theorem C4_selector_is_hash_prefix_of_signature
    (hash256 : list byte → list byte) (f : Mccmod) :
  Sig f = spec_signature (Name f) (map ArgType (Inputs f)) ∧
  Id hash256 f = spec_selector hash256 (Name f) (map ArgType (Inputs f)) ∧
  (∀ g : Mccmod,
      Name g = Name f →
      map ArgType (Inputs g) = map ArgType (Inputs f) →
      Sig g = Sig f ∧ Id hash256 g = Id hash256 f) ∧
  ((∀ bs, length (hash256 bs) = 32) → length (Id hash256 f) = 4).
Proof.
  split_and!.
  - apply Sig_spec.
  - unfold Id, spec_selector, utf8, bytes_of_string. by rewrite Sig_spec.
  - intros g Hn Hi. unfold Id. rewrite !Sig_spec, Hn, Hi. done.
  - apply Id_length.
Qed.

Lemma C4_selector_witness :
  let f := {| Name := "send"; Const := false;
              Inputs := [ {| ArgName := "amount"; ArgType := UnsignedInt 256;
                             Indexed := false |} ];
              Outputs := [] |} in
  Sig f = "send(uint256)"%string ∧
  Id prefix_hash f = [x73; x65; x6e; x64] ∧
  length (Id prefix_hash f) = 4.
Proof.
  intros f.
  destruct (C4_selector_is_hash_prefix_of_signature prefix_hash f)
    as (Hs & Hi & _ & Hl).
  split_and!.
  - rewrite Hs. vm_compute. reflexivity.
  - rewrite Hi. vm_compute. reflexivity.
  - apply Hl. intros bs. apply prefix_hash_length.
Defined.

(** C7: in the registry loaded from the schema of the method tests, the
    signatures are the listed ones; a tuple is rendered as its
    parenthesized comma-joined component types, array suffixes outside. *)
Theorem C7_signatures_of_the_test_schema :
  Sig <$> lookup_mccmod (JSON mccmoddata) "balance" = Some "balance()"%string ∧
  Sig <$> lookup_mccmod (JSON mccmoddata) "send" = Some "send(uint256)"%string ∧
  Sig <$> lookup_mccmod (JSON mccmoddata) "transfer"
    = Some "transfer(address,address,uint256)"%string ∧
  Sig <$> lookup_mccmod (JSON mccmoddata) "tuple"
    = Some "tuple((uint256,uint256))"%string ∧
  Sig <$> lookup_mccmod (JSON mccmoddata) "tupleSlice"
    = Some "tupleSlice((uint256,uint256)[])"%string ∧
  Sig <$> lookup_mccmod (JSON mccmoddata) "tupleArray"
    = Some "tupleArray((uint256,uint256)[5])"%string ∧
  Sig <$> lookup_mccmod (JSON mccmoddata) "complexTuple"
    = Some "complexTuple((uint256,uint256)[5][])"%string.
Proof. split_and!; vm_compute; reflexivity. Qed.

Lemma MccmodString_spec (f : Mccmod) :
  MccmodString f =
    ("function " ++ Name f ++ "(" ++ String.concat ", " (map render_input (Inputs f))
      ++ ") " ++ (if Const f then "constant " else EmptyString)
      ++ "returns(" ++ String.concat ", " (map render_output (Outputs f)) ++ ")")%string.
Proof.
  unfold MccmodString. rewrite !range_assign_map, !Join_concat.
  replace (map _ (Outputs f)) with (map render_output (Outputs f)); [done|].
  apply map_ext. intros a. unfold render_output.
  destruct (ArgName a) as [|c n]; simpl; repeat case_decide; try done; lia.
Qed.

(** C8: in the registry loaded from the schema of the method tests,
    [transfer] has the signature [transfer(address,address,uint256)] and
    renders as [function transfer(address from, address to, uint256 value)
    returns(bool success)]; in general the inputs are rendered as
    [type name] pairs joined by a comma and a space, the outputs inside
    [returns(...)], and [constant ] appears exactly when the method is
    constant. *)
Theorem C8_transfer_signature_and_rendering :
  Sig <$> lookup_mccmod (JSON mccmoddata) "transfer"
    = Some "transfer(address,address,uint256)"%string ∧
  MccmodString <$> lookup_mccmod (JSON mccmoddata) "transfer"
    = Some "function transfer(address from, address to, uint256 value) returns(bool success)"%string ∧
  MccmodString <$> lookup_mccmod (JSON mccmoddata) "balance"
    = Some "function balance() constant returns()"%string ∧
  ∀ f : Mccmod,
    MccmodString f =
      ("function " ++ Name f ++ "("
        ++ String.concat ", " (map render_input (Inputs f))
        ++ ") " ++ (if Const f then "constant " else EmptyString)
        ++ "returns(" ++ String.concat ", " (map render_output (Outputs f)) ++ ")")%string.
Proof.
  split_and!; [vm_compute; reflexivity .. | apply MccmodString_spec].
Qed.

(** ** The operations of the registry *)

Section RegistryProperties.
Variable hash256 : list byte → list byte.
Variable argsPack : Arguments → list Value → result (list byte).
Variable argsUnpack : Arguments → list byte → result (list Value).
Variable argsUnpackIntoMap :
  gmap string Value → Arguments → list byte → result (gmap string Value).

Lemma Pack_constructor (abi : ABI) (args : list Value) :
  Pack hash256 argsPack abi EmptyString args = argsPack (Inputs (Constructor abi)) args.
Proof. unfold Pack. simpl. by destruct (argsPack _ _). Qed.

Lemma Pack_mccmod (abi : ABI) (name : string) (args : list Value) (m : Mccmod) :
  name ≠ EmptyString → Mccmods abi !! name = Some m →
  Pack hash256 argsPack abi name args =
    match argsPack (Inputs m) args with
    | Ok arguments => Ok (Id hash256 m ++ arguments)
    | Err e => Err e
    end.
Proof. intros Hn Hm. unfold Pack. rewrite decide_False, Hm by done. done. Qed.

Lemma Pack_absent (abi : ABI) (name : string) (args : list Value) :
  name ≠ EmptyString → Mccmods abi !! name = None →
  Pack hash256 argsPack abi name args = Err (ErrMccmodNotFound name).
Proof. intros Hn Hm. unfold Pack. rewrite decide_False, Hm by done. done. Qed.

Lemma nonempty_length (data : list byte) : data ≠ [] → length data ≠ 0.
Proof. by destruct data. Qed.

Lemma Unpack_mccmod (abi : ABI) (name : string) (data : list byte) (m : Mccmod) :
  data ≠ [] → Mccmods abi !! name = Some m →
  Unpack argsUnpack abi name data =
    (if decide (length data mod 32 ≠ 0) then Err (ErrImproperOutput data)
     else argsUnpack (Outputs m) data) ∧
  ∀ v, UnpackIntoMap argsUnpackIntoMap abi v name data =
    (if decide (length data mod 32 ≠ 0) then Err (ErrImproperOutput data)
     else argsUnpackIntoMap v (Outputs m) data).
Proof.
  intros Hd%nonempty_length Hm. unfold Unpack, UnpackIntoMap.
  split; [|intros v]; by rewrite decide_False, Hm by done.
Qed.

Lemma Unpack_event (abi : ABI) (name : string) (data : list byte) (ev : Event) :
  data ≠ [] → Mccmods abi !! name = None → Events abi !! name = Some ev →
  Unpack argsUnpack abi name data = argsUnpack (EvInputs ev) data ∧
  ∀ v, UnpackIntoMap argsUnpackIntoMap abi v name data =
    argsUnpackIntoMap v (EvInputs ev) data.
Proof.
  intros Hd%nonempty_length Hm He. unfold Unpack, UnpackIntoMap.
  split; [|intros v]; by rewrite decide_False, Hm, He by done.
Qed.

Lemma Unpack_absent (abi : ABI) (name : string) (data : list byte) :
  data ≠ [] → Mccmods abi !! name = None → Events abi !! name = None →
  Unpack argsUnpack abi name data = Err ErrNotLocated ∧
  ∀ v, UnpackIntoMap argsUnpackIntoMap abi v name data = Err ErrNotLocated.
Proof.
  intros Hd%nonempty_length Hm He. unfold Unpack, UnpackIntoMap.
  split; [|intros v]; by rewrite decide_False, Hm, He by done.
Qed.

Lemma Unpack_empty (abi : ABI) (name : string) :
  Unpack argsUnpack abi name [] = Err ErrEmptyOutput ∧
  ∀ v, UnpackIntoMap argsUnpackIntoMap abi v name [] = Err ErrEmptyOutput.
Proof. unfold Unpack, UnpackIntoMap. split; [|intros v]; by rewrite decide_True. Qed.

Lemma range_find_Some (id : list byte) (entries : list (string * Mccmod)) (m : Mccmod) :
  range_find hash256 id entries = Some m →
  (∃ k, (k, m) ∈ entries) ∧ Id hash256 m = id.
Proof.
  induction entries as [|[k m'] entries IH]; simpl; [done|].
  case_decide as Hid.
  - intros [= ->]. split; [exists k; apply elem_of_cons; by left | done].
  - intros [[k' Hin] ?]%IH. split; [exists k'; apply elem_of_cons; by right | done].
Qed.

Lemma range_find_None (id : list byte) (entries : list (string * Mccmod)) :
  range_find hash256 id entries = None →
  ∀ k m, (k, m) ∈ entries → Id hash256 m ≠ id.
Proof.
  induction entries as [|[k' m'] entries IH]; simpl; intros Hf k m Hin.
  - by apply elem_of_nil in Hin.
  - case_decide as Hid; [done|].
    apply elem_of_cons in Hin as [[= -> ->] | Hin]; [done | by eapply IH].
Qed.

Lemma range_order_elem (abi : ABI) (order : list (string * Mccmod)) k m :
  range_order (Mccmods abi) order →
  (k, m) ∈ order ↔ Mccmods abi !! k = Some m.
Proof.
  unfold range_order. intros ->. apply elem_of_map_to_list.
Qed.
End RegistryProperties.

(** C5: packing with the empty name is the encoding of the constructor's
    inputs with no selector; packing with a registered nonempty name is the
    selector of that method (4 bytes when the hash has 32) followed by the
    encoding of its inputs; packing with a nonempty name that is not in the
    methods map is an error, with no bytes. *)
Theorem C5_pack_selector_prefix
    (hash256 : list byte → list byte)
    (argsPack : Arguments → list Value → result (list byte))
    (abi : ABI) (name : string) (args : list Value) :
  (name = EmptyString →
     Pack hash256 argsPack abi name args = argsPack (Inputs (Constructor abi)) args) ∧
  (name ≠ EmptyString → ∀ m, Mccmods abi !! name = Some m →
     (∀ arguments, argsPack (Inputs m) args = Ok arguments →
        Pack hash256 argsPack abi name args = Ok (Id hash256 m ++ arguments)) ∧
     (∀ e, argsPack (Inputs m) args = Err e →
        Pack hash256 argsPack abi name args = Err e) ∧
     ((∀ bs, length (hash256 bs) = 32) → length (Id hash256 m) = 4)) ∧
  (name ≠ EmptyString → Mccmods abi !! name = None →
     Pack hash256 argsPack abi name args = Err (ErrMccmodNotFound name)).
Proof.
  split_and!.
  - intros ->. apply Pack_constructor.
  - intros Hn m Hm. rewrite (Pack_mccmod _ _ _ _ _ m Hn Hm). split_and!.
    + by intros arguments ->.
    + by intros e ->.
    + apply Id_length.
  - apply Pack_absent.
Qed.

Lemma C5_pack_witness :
  Pack prefix_hash ArgumentsPack example_ABI EmptyString [VInt 7] = Ok (word 7) ∧
  Pack prefix_hash ArgumentsPack example_ABI "send" [VInt 7]
    = Ok ([x73; x65; x6e; x64] ++ word 7) ∧
  Pack prefix_hash ArgumentsPack example_ABI "send" [VBool true]
    = Err (EncodingError "value incompatible with its type") ∧
  length (Id prefix_hash send_mccmod) = 4 ∧
  Pack prefix_hash ArgumentsPack example_ABI "burn" [VInt 7]
    = Err (ErrMccmodNotFound "burn").
Proof.
  split_and!.
  - destruct (C5_pack_selector_prefix prefix_hash ArgumentsPack example_ABI
                EmptyString [VInt 7]) as (H & _ & _).
    rewrite H by reflexivity. vm_compute. reflexivity.
  - destruct (C5_pack_selector_prefix prefix_hash ArgumentsPack example_ABI
                "send" [VInt 7]) as (_ & H & _).
    destruct (H ltac:(discriminate) send_mccmod ltac:(vm_compute; reflexivity))
      as (Hok & _ & _).
    rewrite (Hok (word 7)) by (vm_compute; reflexivity).
    vm_compute. reflexivity.
  - destruct (C5_pack_selector_prefix prefix_hash ArgumentsPack example_ABI
                "send" [VBool true]) as (_ & H & _).
    destruct (H ltac:(discriminate) send_mccmod ltac:(vm_compute; reflexivity))
      as (_ & Herr & _).
    apply Herr. vm_compute. reflexivity.
  - destruct (C5_pack_selector_prefix prefix_hash ArgumentsPack example_ABI
                "send" []) as (_ & H & _).
    destruct (H ltac:(discriminate) send_mccmod ltac:(vm_compute; reflexivity))
      as (_ & _ & Hlen).
    apply Hlen. intros bs. apply prefix_hash_length.
  - destruct (C5_pack_selector_prefix prefix_hash ArgumentsPack example_ABI
                "burn" [VInt 7]) as (_ & _ & H).
    apply H; [discriminate | vm_compute; reflexivity].
Defined.

(** C6: on non-empty data [Unpack] and [UnpackIntoMap] resolve the name
    among the methods first (the method's outputs are decoded, whatever the
    events hold under that name), among the events only when no method has
    the name (the event's inputs are decoded), and fail with the not-found
    error, whatever the argument decoder is, when neither map has it. *)
Theorem C6_unpack_resolves_methods_before_events
    (argsUnpack : Arguments → list byte → result (list Value))
    (argsUnpackIntoMap :
       gmap string Value → Arguments → list byte → result (gmap string Value))
    (abi : ABI) (name : string) (data : list byte) :
  data ≠ [] →
  (∀ m, Mccmods abi !! name = Some m →
     Unpack argsUnpack abi name data =
       (if decide (length data mod 32 ≠ 0) then Err (ErrImproperOutput data)
        else argsUnpack (Outputs m) data) ∧
     ∀ v, UnpackIntoMap argsUnpackIntoMap abi v name data =
       (if decide (length data mod 32 ≠ 0) then Err (ErrImproperOutput data)
        else argsUnpackIntoMap v (Outputs m) data)) ∧
  (Mccmods abi !! name = None → ∀ ev, Events abi !! name = Some ev →
     Unpack argsUnpack abi name data = argsUnpack (EvInputs ev) data ∧
     ∀ v, UnpackIntoMap argsUnpackIntoMap abi v name data =
       argsUnpackIntoMap v (EvInputs ev) data) ∧
  (Mccmods abi !! name = None → Events abi !! name = None →
     Unpack argsUnpack abi name data = Err ErrNotLocated ∧
     (∀ v, UnpackIntoMap argsUnpackIntoMap abi v name data = Err ErrNotLocated) ∧
     is_not_found_error ErrNotLocated = true).
Proof.
  intros Hd. split_and!.
  - intros m Hm. by apply Unpack_mccmod.
  - intros Hm ev Hev. by apply Unpack_event.
  - intros Hm Hev. destruct (Unpack_absent argsUnpack argsUnpackIntoMap abi name data)
      as [H1 H2]; done.
Qed.

Lemma C6_unpack_witness :
  Unpack ArgumentsUnpack example_ABI "send" (word 1) = Ok [VBool true] ∧
  Unpack ArgumentsUnpack example_ABI "sent" (word 1) = Ok [VInt 1] ∧
  UnpackIntoMap ArgumentsUnpackIntoMap example_ABI ∅ "send" (word 1)
    = Ok {[ "success"%string := VBool true ]} ∧
  Unpack ArgumentsUnpack example_ABI "burn" (word 1) = Err ErrNotLocated.
Proof.
  destruct (C6_unpack_resolves_methods_before_events ArgumentsUnpack
              ArgumentsUnpackIntoMap example_ABI "send" (word 1) ltac:(discriminate))
    as (Hm & _ & _).
  destruct (Hm send_mccmod ltac:(vm_compute; reflexivity)) as [Hm1 Hm2].
  destruct (C6_unpack_resolves_methods_before_events ArgumentsUnpack
              ArgumentsUnpackIntoMap example_ABI "sent" (word 1) ltac:(discriminate))
    as (_ & He & _).
  destruct (He ltac:(vm_compute; reflexivity) sent_event ltac:(vm_compute; reflexivity))
    as [He1 _].
  destruct (C6_unpack_resolves_methods_before_events ArgumentsUnpack
              ArgumentsUnpackIntoMap example_ABI "burn" (word 1) ltac:(discriminate))
    as (_ & _ & Hn).
  destruct (Hn ltac:(vm_compute; reflexivity) ltac:(vm_compute; reflexivity))
    as (Hn1 & _ & _).
  split_and!.
  - rewrite Hm1. vm_compute. reflexivity.
  - rewrite He1. vm_compute. reflexivity.
  - rewrite Hm2. vm_compute. reflexivity.
  - exact Hn1.
Defined.

(** ** The length guard *)

Lemma ArgumentsUnpack_guard (data : list byte) :
  length data = 0 ∨ length data mod 32 ≠ 0 →
  ∃ e, is_decoding_error e = true ∧
       ∀ arguments,
         ArgumentsUnpack arguments data = Err e ∧
         ∀ v, ArgumentsUnpackIntoMap v arguments data = Err e.
Proof.
  intros Hlen. destruct (decide (length data = 0)) as [H0 | H0].
  - exists (DecodingError "empty input"). split; [done|]. intros arguments.
    unfold ArgumentsUnpackIntoMap, ArgumentsUnpack. by rewrite decide_True.
  - destruct Hlen as [? | Hmod]; [done|].
    exists (DecodingError "length not a multiple of 32"). split; [done|].
    intros arguments. unfold ArgumentsUnpackIntoMap, ArgumentsUnpack.
    by rewrite decide_False, decide_True.
Qed.

Lemma registry_guard
    (argsUnpack : Arguments → list byte → result (list Value))
    (argsUnpackIntoMap :
       gmap string Value → Arguments → list byte → result (gmap string Value))
    (abi : ABI) (name : string) (data : list byte) :
  length data = 0 ∨ length data mod 32 ≠ 0 →
  is_Some (Mccmods abi !! name) ∨ length data = 0 →
  ∃ e e', is_decoding_error e = true ∧ is_decoding_error e' = true ∧
          Unpack argsUnpack abi name data = Err e ∧
          ∀ v, UnpackIntoMap argsUnpackIntoMap abi v name data = Err e'.
Proof.
  intros Hlen Hreg. destruct data as [|b data].
  - exists ErrEmptyOutput, ErrEmptyOutput.
    destruct (Unpack_empty argsUnpack argsUnpackIntoMap abi name) as [H1 H2].
    by split_and!.
  - destruct Hreg as [[m Hm] | ?]; [|done].
    destruct Hlen as [? | Hmod]; [done|].
    exists (ErrImproperOutput (b :: data)), (ErrImproperOutput (b :: data)).
    destruct (Unpack_mccmod argsUnpack argsUnpackIntoMap abi name (b :: data) m)
      as [H1 H2]; [done | done |].
    split_and!; [done | done | |].
    + rewrite H1. by rewrite decide_True.
    + intros v. rewrite H2. by rewrite decide_True.
Qed.

(** C2: for every registry, every name registered in it, as a method or
    as an event, and every input whose length is 0 or not a multiple of 32,
    [Unpack] and [UnpackIntoMap] return a decoding error, and no structural
    decoding comes before it: for a method, and for empty input, the
    registry returns the error whatever the argument decoder is; for an
    event the input goes to the argument decoder, whose length guard
    returns the error whatever the schema is. *)
Theorem C2_length_guard (abi : ABI) (name : string) (data : list byte) :
  length data = 0 ∨ length data mod 32 ≠ 0 →
  is_Some (Mccmods abi !! name) ∨ is_Some (Events abi !! name) →
  (∃ e, is_decoding_error e = true ∧
        Unpack ArgumentsUnpack abi name data = Err e) ∧
  (∀ v, ∃ e, is_decoding_error e = true ∧
             UnpackIntoMap ArgumentsUnpackIntoMap abi v name data = Err e) ∧
  (is_Some (Mccmods abi !! name) ∨ length data = 0 →
     ∀ argsUnpack argsUnpackIntoMap,
       ∃ e e', is_decoding_error e = true ∧ is_decoding_error e' = true ∧
               Unpack argsUnpack abi name data = Err e ∧
               ∀ v, UnpackIntoMap argsUnpackIntoMap abi v name data = Err e') ∧
  (∃ e, is_decoding_error e = true ∧
        ∀ arguments,
          ArgumentsUnpack arguments data = Err e ∧
          ∀ v, ArgumentsUnpackIntoMap v arguments data = Err e).
Proof.
  intros Hlen Hreg.
  assert (is_Some (Mccmods abi !! name) ∨ length data = 0 ∨
          (Mccmods abi !! name = None ∧ length data ≠ 0 ∧
           is_Some (Events abi !! name))) as Hcases.
  { destruct (Mccmods abi !! name) as [m|] eqn:Hm; [left; by eexists|].
    destruct (decide (length data = 0)); [by right; left|].
    right; right. destruct Hreg as [[? ?] | ?]; done. }
  destruct (ArgumentsUnpack_guard data Hlen) as (eg & Heg & Hguard).
  split_and!.
  - destruct Hcases as [Hm | [H0 | (Hm & H0 & [ev Hev])]].
    + destruct (registry_guard ArgumentsUnpack ArgumentsUnpackIntoMap abi name data)
        as (e & e' & He & _ & Hu & _); [done | by left |]. by exists e.
    + destruct (registry_guard ArgumentsUnpack ArgumentsUnpackIntoMap abi name data)
        as (e & e' & He & _ & Hu & _); [done | by right |]. by exists e.
    + exists eg. split; [done|].
      destruct (Unpack_event ArgumentsUnpack ArgumentsUnpackIntoMap abi name data ev)
        as [H1 _]; [by intros -> | done | done |].
      rewrite H1. apply Hguard.
  - intros v. destruct Hcases as [Hm | [H0 | (Hm & H0 & [ev Hev])]].
    + destruct (registry_guard ArgumentsUnpack ArgumentsUnpackIntoMap abi name data)
        as (e & e' & _ & He & _ & Hu); [done | by left |]. by exists e'.
    + destruct (registry_guard ArgumentsUnpack ArgumentsUnpackIntoMap abi name data)
        as (e & e' & _ & He & _ & Hu); [done | by right |]. by exists e'.
    + exists eg. split; [done|].
      destruct (Unpack_event ArgumentsUnpack ArgumentsUnpackIntoMap abi name data ev)
        as [_ H2]; [by intros -> | done | done |].
      rewrite H2. apply Hguard.
  - intros Hm argsUnpack argsUnpackIntoMap. by apply registry_guard.
  - by exists eg.
Qed.

Lemma C2_length_guard_witness :
  (∃ e, is_decoding_error e = true ∧
        Unpack ArgumentsUnpack example_ABI "sent" (word 7 ++ [x00]) = Err e) ∧
  (∃ e, is_decoding_error e = true ∧
        Unpack ArgumentsUnpack example_ABI "send" (word 7 ++ [x00]) = Err e) ∧
  (∃ e, is_decoding_error e = true ∧
        UnpackIntoMap ArgumentsUnpackIntoMap example_ABI ∅ "sent" [] = Err e).
Proof.
  split_and!.
  - destruct (C2_length_guard example_ABI "sent" (word 7 ++ [x00])) as (H & _).
    + right. vm_compute. discriminate.
    + right. vm_compute. by eexists.
    + exact H.
  - destruct (C2_length_guard example_ABI "send" (word 7 ++ [x00])) as (H & _).
    + right. vm_compute. discriminate.
    + left. vm_compute. by eexists.
    + exact H.
  - destruct (C2_length_guard example_ABI "sent" []) as (_ & H & _).
    + left. reflexivity.
    + right. vm_compute. by eexists.
    + exact (H ∅).
Defined.

(** ** Lookup by selector, over the orders of the map *)

(** C10 (counterexample): with two registered methods of one id, the same
    input gives different methods under two orders in which the map can be
    ranged over, so the outcome is not a function of the first 4 bytes
    alone. *)
Lemma C10_outcome_varies_with_range_order :
  let order1 := [("send"%string, send_mccmod); ("sendAll"%string, sendAll_mccmod)] in
  let order2 := [("sendAll"%string, sendAll_mccmod); ("send"%string, send_mccmod)] in
  let sigdata := [x73; x65; x6e; x64; x00] in
  range_order (Mccmods colliding_ABI) order1 ∧
  range_order (Mccmods colliding_ABI) order2 ∧
  MccmodById prefix_hash order1 sigdata = Ok send_mccmod ∧
  MccmodById prefix_hash order2 sigdata = Ok sendAll_mccmod ∧
  send_mccmod ≠ sendAll_mccmod.
Proof.
  unfold range_order. split_and!.
  - vm_compute. first [reflexivity | apply perm_swap].
  - vm_compute. first [reflexivity | apply perm_swap].
  - vm_compute. reflexivity.
  - vm_compute. reflexivity.
  - discriminate.
Qed.

(** C10 (amended): below 4 bytes the lookup by selector fails whatever the
    methods are.  From 4 bytes on, under one order of ranging over the map
    the outcome depends on the first 4 bytes only; under any two orders, and
    for any two inputs that agree on their first 4 bytes, the lookup
    succeeds under both or fails under both with the same error, and it
    gives the same method when at most one registered method has these 4
    bytes as its id.  It returns a registered method whose id is the first 4
    bytes when there is one, and an error when there is none. *)
Theorem C10_lookup_by_selector
    (hash256 : list byte → list byte) (abi : ABI)
    (order order' : list (string * Mccmod)) :
  range_order (Mccmods abi) order →
  range_order (Mccmods abi) order' →
  (∀ sigdata (entries : list (string * Mccmod)),
     length sigdata < 4 →
     MccmodById hash256 entries sigdata = Err (ErrTooShort (length sigdata))) ∧
  (∀ sigdata sigdata',
     4 ≤ length sigdata → 4 ≤ length sigdata' →
     take 4 sigdata = take 4 sigdata' →
     MccmodById hash256 order sigdata = MccmodById hash256 order sigdata' ∧
     match MccmodById hash256 order sigdata, MccmodById hash256 order' sigdata' with
     | Ok m, Ok m' => Id hash256 m = Id hash256 m'
     | Err e, Err e' => e = e'
     | _, _ => False
     end ∧
     ((∀ k1 m1 k2 m2,
         Mccmods abi !! k1 = Some m1 → Mccmods abi !! k2 = Some m2 →
         Id hash256 m1 = take 4 sigdata → Id hash256 m2 = take 4 sigdata →
         m1 = m2) →
      MccmodById hash256 order sigdata = MccmodById hash256 order' sigdata')) ∧
  (∀ sigdata, 4 ≤ length sigdata →
     match MccmodById hash256 order sigdata with
     | Ok m =>
         (∃ name, Mccmods abi !! name = Some m) ∧ Id hash256 m = take 4 sigdata
     | Err e =>
         e = ErrNoMccmodWithId (take 4 sigdata) ∧
         ∀ name m, Mccmods abi !! name = Some m → Id hash256 m ≠ take 4 sigdata
     end).
Proof.
  intros Horder Horder'. split_and!.
  - intros sigdata entries Hlen. unfold MccmodById. by rewrite decide_True.
  - intros s s' Hs Hs' Heq. unfold MccmodById.
    rewrite !decide_False by lia. rewrite <- Heq.
    destruct (range_find hash256 (take 4 s) order) as [m|] eqn:Hf;
      destruct (range_find hash256 (take 4 s) order') as [m'|] eqn:Hf'.
    + apply range_find_Some in Hf as [[k Hin] Hid].
      apply range_find_Some in Hf' as [[k' Hin'] Hid'].
      split_and!; [done | congruence |]. intros Huniq. f_equal.
      apply (Huniq k m k' m'); [|  | done | done].
      * by apply (range_order_elem abi order).
      * by apply (range_order_elem abi order').
    + exfalso. apply range_find_Some in Hf as [[k Hin] Hid].
      apply (range_find_None hash256 _ order' Hf' k m); [|done].
      apply (range_order_elem abi order'); [done|].
      by apply (range_order_elem abi order).
    + exfalso. apply range_find_Some in Hf' as [[k Hin] Hid].
      apply (range_find_None hash256 _ order Hf k m'); [|done].
      apply (range_order_elem abi order); [done|].
      by apply (range_order_elem abi order').
    + done.
  - intros s Hs. unfold MccmodById. rewrite decide_False by lia.
    destruct (range_find hash256 (take 4 s) order) as [m|] eqn:Hf.
    + apply range_find_Some in Hf as [[k Hin] Hid]. split; [|done].
      exists k. by apply (range_order_elem abi order).
    + split; [done|]. intros k m Hm.
      eapply range_find_None; [done|]. by apply (range_order_elem abi order).
Qed.

Lemma C10_lookup_witness :
  MccmodById prefix_hash (map_to_list (Mccmods example_ABI)) [x73; x65; x6e]
    = Err (ErrTooShort 3) ∧
  MccmodById prefix_hash (map_to_list (Mccmods example_ABI))
      [x73; x65; x6e; x64; x00; x01]
    = MccmodById prefix_hash (map_to_list (Mccmods example_ABI))
        [x73; x65; x6e; x64; xff] ∧
  MccmodById prefix_hash [("send"%string, send_mccmod)]
      [x73; x65; x6e; x64; x00; x01]
    = MccmodById prefix_hash (map_to_list (Mccmods example_ABI))
        [x73; x65; x6e; x64; x00; x01].
Proof.
  destruct (C10_lookup_by_selector prefix_hash example_ABI
              (map_to_list (Mccmods example_ABI)) (map_to_list (Mccmods example_ABI)))
    as (H1 & H2 & H3); [unfold range_order; reflexivity ..|].
  destruct (C10_lookup_by_selector prefix_hash example_ABI
              [("send"%string, send_mccmod)] (map_to_list (Mccmods example_ABI)))
    as (_ & H2' & _).
  { unfold range_order. vm_compute. reflexivity. }
  { unfold range_order. reflexivity. }
  split_and!.
  - apply (H1 [x73; x65; x6e]). simpl. lia.
  - destruct (H2 [x73; x65; x6e; x64; x00; x01] [x73; x65; x6e; x64; xff])
      as (Hsame & _); [simpl; lia | simpl; lia | reflexivity |].
    exact Hsame.
  - destruct (H2' [x73; x65; x6e; x64; x00; x01] [x73; x65; x6e; x64; x00; x01])
      as (_ & _ & Huniq); [simpl; lia | simpl; lia | reflexivity |].
    apply Huniq. intros k1 m1 k2 m2 Hm1 Hm2 _ _.
    unfold example_ABI in Hm1, Hm2. simpl in Hm1, Hm2.
    apply lookup_singleton_Some in Hm1 as [_ <-].
    apply lookup_singleton_Some in Hm2 as [_ <-]. reflexivity.
Defined.

(** ** Name resolution *)

Lemma pretty_N_go_length (x : N) (s : string) :
  String.length s ≤ String.length (pretty_N_go x s).
Proof.
  revert s. induction (N.lt_wf_0 x) as [x _ IH]; intros s.
  destruct (decide (x = 0)%N) as [->|Hx]; [by rewrite pretty_N_go_0|].
  rewrite pretty_N_go_step by lia.
  etrans; [|apply IH; apply N.div_lt; lia]. simpl. lia.
Qed.

Lemma pretty_nat_nonempty (n : nat) : 0 < String.length (pretty n).
Proof.
  unfold pretty, pretty_nat, pretty, pretty_N.
  case_decide as Hn; [simpl; lia|].
  rewrite pretty_N_go_step by lia.
  eapply Nat.lt_le_trans; [|apply pretty_N_go_length]. simpl. lia.
Qed.

Lemma append_length (a b : string) :
  String.length (a ++ b) = String.length a + String.length b.
Proof.
  induction a as [|x a IH]; [done|].
  change (S (String.length (a ++ b)) = S (String.length a) + String.length b).
  by rewrite IH.
Qed.

Lemma overloaded_inj (base : string) (i j : nat) :
  overloaded base i = overloaded base j → i = j.
Proof.
  unfold overloaded. intros H%(inj (String.app base)). by apply (inj pretty).
Qed.

Lemma overloaded_ne_base (base : string) (i : nat) : overloaded base i ≠ base.
Proof.
  intros H%(f_equal String.length). unfold overloaded in H.
  rewrite append_length in H. pose proof (pretty_nat_nonempty i). lia.
Qed.

Lemma candidate_inj (base : string) (i j : nat) :
  candidate base i = candidate base j → i = j.
Proof.
  destruct i, j; simpl; intros H.
  - done.
  - by destruct (overloaded_ne_base base j).
  - by destruct (overloaded_ne_base base i).
  - f_equal. by eapply overloaded_inj.
Qed.

Lemma overload_loop_ext {V} (m m' : gmap string V) (base : string) (fuel idx : nat) :
  (∀ j, idx ≤ j → is_Some (m !! overloaded base j) ↔ is_Some (m' !! overloaded base j)) →
  overload_loop m base idx fuel = overload_loop m' base idx fuel.
Proof.
  revert idx. induction fuel as [|fuel IH]; intros idx Hext; simpl; [done|].
  pose proof (Hext idx (le_n _)) as H0.
  repeat case_decide; try tauto; try done.
  apply IH. intros j Hj. apply Hext. lia.
Qed.

(** The loop leaves with the first name from [idx] on that is not a key;
    [size m] rounds are enough for that. *)
Lemma overload_loop_spec {V} (base : string) (fuel : nat) :
  ∀ (m : gmap string V) (idx : nat),
    size m ≤ fuel →
    ∃ k, overload_loop m base idx fuel = overloaded base (idx + k) ∧
         m !! overloaded base (idx + k) = None ∧
         ∀ j, j < k → is_Some (m !! overloaded base (idx + j)).
Proof.
  induction fuel as [|fuel IH]; intros m idx Hsize; simpl.
  - exists 0. rewrite Nat.add_0_r.
    assert (m = ∅) as -> by (apply map_size_empty_iff; lia).
    split_and!; [done | apply lookup_empty | lia].
  - case_decide as Hin.
    + set (m' := delete (overloaded base idx) m).
      assert (size m' ≤ fuel) as Hsize'.
      { unfold m'. rewrite map_size_delete_Some by done. lia. }
      assert (∀ j, S idx ≤ j →
                m' !! overloaded base j = m !! overloaded base j) as Hlook.
      { intros j Hj. unfold m'. apply lookup_delete_ne.
        intros Heq%overloaded_inj. lia. }
      rewrite (overload_loop_ext m m' base fuel (S idx))
        by (intros j Hj; by rewrite Hlook).
      destruct (IH m' (S idx) Hsize') as (k & Hk & Hnone & Hsome).
      exists (S k). replace (idx + S k) with (S idx + k) by lia.
      split_and!; [done | by rewrite <- Hlook by lia |].
      intros j Hj. destruct j as [|j]; [by rewrite Nat.add_0_r|].
      replace (idx + S j) with (S idx + j) by lia.
      rewrite <- Hlook by lia. apply Hsome. lia.
    + exists 0. rewrite Nat.add_0_r. split_and!; [done | | lia].
      by apply eq_None_not_Some.
Qed.

(** An entry is registered under the first of its candidate names that is
    not yet a key. *)
Lemma resolve_name_spec {V} (m : gmap string V) (base : string) :
  ∃ k, resolve_name m base = candidate base k ∧
       m !! candidate base k = None ∧
       ∀ j, j < k → is_Some (m !! candidate base j).
Proof.
  unfold resolve_name. case_decide as Hin.
  - destruct (overload_loop_spec base (size m) m 0 (le_n _)) as (k & Hk & Hnone & Hsome).
    exists (S k). simpl in *. split_and!; [done..|].
    intros [|j] Hj; simpl; [done|]. apply Hsome. lia.
  - exists 0. simpl. split_and!; [done | by apply eq_None_not_Some | lia].
Qed.

Lemma resolve_name_fresh {V} (m : gmap string V) (base : string) :
  m !! resolve_name m base = None.
Proof. destruct (resolve_name_spec m base) as (k & -> & Hnone & _). done. Qed.

(** When the keys among the candidates of [base] are exactly the first
    [c], the next entry declared [base] gets the candidate number [c]. *)
Lemma resolve_name_count {V} (m : gmap string V) (base : string) (c : nat) :
  (∀ j, is_Some (m !! candidate base j) ↔ j < c) →
  resolve_name m base = candidate base c.
Proof.
  intros Hinv. destruct (resolve_name_spec m base) as (k & -> & Hnone & Hsome).
  f_equal. destruct (Nat.lt_trichotomy k c) as [Hlt | [-> | Hgt]]; [|done|].
  - apply Hinv in Hlt. rewrite Hnone in Hlt. by destruct Hlt.
  - apply Hsome, Hinv in Hgt. lia.
Qed.

Section Register.
Context {P V : Type} (build : string → P → V).

Lemma register_lookup_old (m : gmap string V) (entry : string * P) x v :
  m !! x = Some v → register build m entry !! x = Some v.
Proof.
  intros Hx. unfold register. rewrite lookup_insert_ne; [done|].
  intros Heq. pose proof (resolve_name_fresh m entry.1) as Hf.
  rewrite Heq, Hx in Hf. done.
Qed.

Lemma foldl_register_lookup_old (entries : list (string * P)) :
  ∀ (m : gmap string V) x v,
    m !! x = Some v → foldl (register build) m entries !! x = Some v.
Proof.
  induction entries as [|e entries IH]; intros m x v Hx; simpl; [done|].
  apply IH. by apply register_lookup_old.
Qed.

(** Which candidates of [name] are keys, through the registration of
    entries that do not interfere with [name]. *)
Lemma foldl_register_count (name : string) (entries : list (string * P)) :
  ∀ (m : gmap string V) (c : nat),
    (∀ e, e ∈ entries → e.1 ≠ name → ∀ i j, candidate e.1 i ≠ candidate name j) →
    (∀ j, is_Some (m !! candidate name j) ↔ j < c) →
    ∀ j, is_Some (foldl (register build) m entries !! candidate name j)
         ↔ j < c + length (filter (λ e, e.1 = name) entries).
Proof.
  induction entries as [|e entries IH]; intros m c Hni Hinv j; simpl.
  - rewrite Nat.add_0_r. apply Hinv.
  - assert (∀ e', e' ∈ entries → e'.1 ≠ name →
              ∀ i j, candidate e'.1 i ≠ candidate name j) as Hni'.
    { intros e' He'. apply Hni. by apply elem_of_cons; right. }
    rewrite filter_cons. case_decide as Hname.
    + simpl length. replace (c + S (length (filter (λ e0, e0.1 = name) entries)))
        with (S c + length (filter (λ e0, e0.1 = name) entries)) by lia.
      apply IH; [done|]. intros j'. unfold register.
      rewrite Hname, (resolve_name_count m name c Hinv).
      destruct (decide (j' = c)) as [->|Hne].
      * rewrite lookup_insert_eq. split; [lia | by eexists].
      * rewrite lookup_insert_ne by (intros ?%candidate_inj; done).
        rewrite Hinv. lia.
    + apply IH; [done|]. intros j'. unfold register.
      destruct (resolve_name_spec m e.1) as (k & -> & _ & _).
      rewrite lookup_insert_ne; [apply Hinv|].
      apply Hni; [by apply elem_of_cons; left | done].
Qed.

(** The entry that is the occurrence number [c] of its declared name is
    registered under the candidate number [c], and stays there. *)
Lemma foldl_register_nth (pre post : list (string * P)) (name : string) (p : P) :
  (∀ e, e ∈ pre → e.1 ≠ name → ∀ i j, candidate e.1 i ≠ candidate name j) →
  let c := length (filter (λ e, e.1 = name) pre) in
  foldl (register build) ∅ (pre ++ (name, p) :: post) !! candidate name c
    = Some (build (candidate name c) p).
Proof.
  intros Hni c. rewrite foldl_app. simpl foldl.
  apply foldl_register_lookup_old.
  assert (∀ j, is_Some (foldl (register build) ∅ pre !! candidate name j) ↔ j < c)
    as Hinv.
  { intros j. rewrite (foldl_register_count name pre ∅ 0 Hni); [done|].
    intros j'. rewrite lookup_empty. split; [by intros [? ?] | lia]. }
  change (register build ?m (name, p))
    with (<[resolve_name m name := build (resolve_name m name) p]> m).
  rewrite (resolve_name_count _ name c Hinv).
  apply lookup_insert_eq.
Qed.
End Register.

(** ** Loading: the two maps as folds over the declared entries *)

Lemma is_function_not_constructor (field : Field) :
  is_function field → ¬ is_constructor field.
Proof. unfold is_function, is_constructor. by intros [-> | ->]. Qed.

Lemma is_event_not_function (field : Field) :
  is_event field → ¬ is_function field ∧ ¬ is_constructor field.
Proof.
  unfold is_event, is_function, is_constructor. intros ->.
  split; [intros [?|?]; discriminate | discriminate].
Qed.

Lemma Mccmods_foldl (fields : list Field) :
  ∀ abi : ABI,
    Mccmods (foldl UnmarshalJSON_field abi fields)
    = foldl (register build_mccmod) (Mccmods abi) (declared (filter is_function fields)).
Proof.
  induction fields as [|f fields IH]; intros abi; [done|].
  simpl foldl. rewrite IH, filter_cons. unfold UnmarshalJSON_field.
  destruct (decide (is_function f)) as [Hf | Hf].
  - rewrite decide_False by by apply is_function_not_constructor. done.
  - repeat case_decide; done.
Qed.

Lemma Events_foldl (fields : list Field) :
  ∀ abi : ABI,
    Events (foldl UnmarshalJSON_field abi fields)
    = foldl (register build_event) (Events abi) (declared (filter is_event fields)).
Proof.
  induction fields as [|f fields IH]; intros abi; [done|].
  simpl foldl. rewrite IH, filter_cons. unfold UnmarshalJSON_field.
  destruct (decide (is_event f)) as [Hf | Hf].
  - destruct (is_event_not_function f Hf). rewrite !decide_False by done. done.
  - repeat case_decide; done.
Qed.

Lemma declared_occurrences (name : string) (fields : list Field) :
  length (filter (λ e : string * Field, e.1 = name) (declared fields))
  = occurrences name fields.
Proof.
  unfold occurrences, declared. induction fields as [|f fields IH]; [done|].
  simpl map. rewrite !filter_cons. simpl. case_decide; simpl; by rewrite IH.
Qed.

Lemma declared_non_interfering (name : string) (fields : list Field) :
  non_interfering name fields →
  ∀ e, e ∈ declared fields → e.1 ≠ name →
    ∀ i j, candidate e.1 i ≠ candidate name j.
Proof.
  intros Hni e (g & -> & Hg)%list_elem_of_fmap Hne. simpl in *. by apply Hni.
Qed.

(** A method entry that is the occurrence number [c] of its declared name
    among the method entries, none of the earlier ones interfering, is
    registered under the candidate number [c] of that name. *)
Lemma Mccmods_nth (abi : ABI) (pre post : list Field) (field : Field) :
  is_function field →
  non_interfering (FName field) (filter is_function pre) →
  let name := candidate (FName field) (occurrences (FName field) (filter is_function pre)) in
  Mccmods (UnmarshalJSON abi (pre ++ field :: post)) !! name
    = Some (build_mccmod name field).
Proof.
  intros Hf Hni name. unfold UnmarshalJSON. rewrite Mccmods_foldl. simpl Mccmods.
  rewrite filter_app, filter_cons, decide_True by done.
  unfold declared at 1. rewrite map_app. simpl map. fold (declared (filter is_function pre)).
  unfold name. rewrite <- declared_occurrences.
  apply (foldl_register_nth build_mccmod). by apply declared_non_interfering.
Qed.

Lemma Events_nth (abi : ABI) (pre post : list Field) (field : Field) :
  is_event field →
  non_interfering (FName field) (filter is_event pre) →
  let name := candidate (FName field) (occurrences (FName field) (filter is_event pre)) in
  Events (UnmarshalJSON abi (pre ++ field :: post)) !! name
    = Some (build_event name field).
Proof.
  intros Hf Hni name. unfold UnmarshalJSON. rewrite Events_foldl. simpl Events.
  rewrite filter_app, filter_cons, decide_True by done.
  unfold declared at 1. rewrite map_app. simpl map. fold (declared (filter is_event pre)).
  unfold name. rewrite <- declared_occurrences.
  apply (foldl_register_nth build_event). by apply declared_non_interfering.
Qed.

Lemma first_char_ne (a b : ascii) (s t x y : string) :
  a ≠ b → (String a s ++ x)%string ≠ (String b t ++ y)%string.
Proof. intros Hab. change (String a (s ++ x) ≠ String b (t ++ y))%string. congruence. Qed.

(** ** Disambiguation of repeated names *)

(** C3 (counterexample): with a method declared [foo0] ahead of them, the
    two methods declared [foo] are registered as [foo] and [foo1]; the key
    [foo0] holds the method declared [foo0]. *)
Lemma C3_second_duplicate_not_suffixed_0 :
  let abi := UnmarshalJSON zero_ABI clashing_fields in
  Mccmods abi !! "foo"%string = Some (build_mccmod "foo" foo_address) ∧
  Mccmods abi !! "foo0"%string = Some (build_mccmod "foo0" foo0_uint) ∧
  Mccmods abi !! "foo1"%string = Some (build_mccmod "foo1" foo_bool) ∧
  size (Mccmods abi) = 3.
Proof. split_and!; vm_compute; reflexivity. Qed.

(** C3 (amended): every entry is registered under the first of the names
    [name], [name0], [name1], ... that is not yet a key of its map; the
    methods map depends on the method entries only and the events map on
    the event entries only; and an entry that is the occurrence number [c]
    of its declared name among the earlier entries of its kind, none of
    which competes for the candidate names of that name, is registered
    under the bare name when it is the first and under the name suffixed
    with [c - 1] otherwise, in document order. *)
Theorem C3_disambiguation (abi : ABI) (fields : list Field) :
  (∀ (V : Type) (m : gmap string V) (base : string),
     ∃ k, resolve_name m base = candidate base k ∧
          m !! candidate base k = None ∧
          ∀ j, j < k → is_Some (m !! candidate base j)) ∧
  Mccmods (UnmarshalJSON abi fields)
    = foldl (register build_mccmod) ∅ (declared (filter is_function fields)) ∧
  Events (UnmarshalJSON abi fields)
    = foldl (register build_event) ∅ (declared (filter is_event fields)) ∧
  (∀ pre field post,
     fields = pre ++ field :: post →
     is_function field →
     non_interfering (FName field) (filter is_function pre) →
     let name := candidate (FName field)
                   (occurrences (FName field) (filter is_function pre)) in
     Mccmods (UnmarshalJSON abi fields) !! name = Some (build_mccmod name field)) ∧
  (∀ pre field post,
     fields = pre ++ field :: post →
     is_event field →
     non_interfering (FName field) (filter is_event pre) →
     let name := candidate (FName field)
                   (occurrences (FName field) (filter is_event pre)) in
     Events (UnmarshalJSON abi fields) !! name = Some (build_event name field)).
Proof.
  split_and!.
  - intros V m base. apply resolve_name_spec.
  - unfold UnmarshalJSON. by rewrite Mccmods_foldl.
  - unfold UnmarshalJSON. by rewrite Events_foldl.
  - intros pre field post -> Hf Hni. by apply Mccmods_nth.
  - intros pre field post -> Hf Hni. by apply Events_nth.
Qed.

Lemma bar_foo_apart (i j : nat) : candidate "bar" i ≠ candidate "foo" j.
Proof.
  destruct i, j; unfold candidate, overloaded.
  - discriminate.
  - apply (first_char_ne "b" "f" "ar" "oo" EmptyString (pretty j)). discriminate.
  - apply (first_char_ne "b" "f" "ar" "oo" (pretty i) EmptyString). discriminate.
  - apply (first_char_ne "b" "f" "ar" "oo"). discriminate.
Qed.

Lemma C3_disambiguation_witness :
  let abi := UnmarshalJSON zero_ABI overloaded_fields in
  Mccmods abi !! "foo"%string = Some (build_mccmod "foo" foo_address) ∧
  Mccmods abi !! "foo0"%string = Some (build_mccmod "foo0" foo_bool) ∧
  Mccmods abi !! "foo1"%string = Some (build_mccmod "foo1" foo_string) ∧
  Events abi !! "foo"%string = Some (build_event "foo" foo_logged) ∧
  Events abi !! "foo0"%string = Some (build_event "foo0" foo_logged).
Proof.
  intros abi.
  destruct (C3_disambiguation zero_ABI overloaded_fields)
    as (_ & _ & _ & Hm & He).
  assert (∀ pre : list Field,
            (∀ g, g ∈ pre → FName g = "foo"%string ∨ FName g = "bar"%string) →
            non_interfering "foo" pre) as Hni.
  { intros pre Hpre g Hg Hne i j.
    destruct (Hpre g Hg) as [Hfoo | Hbar]; [done|].
    rewrite Hbar. apply bar_foo_apart. }
  split_and!.
  - apply (Hm [] foo_address
             [foo_logged; bar_uint; foo_bool; constructor_field []; foo_logged; foo_string]).
    + reflexivity.
    + left. reflexivity.
    + apply Hni. intros g Hg. vm_compute in Hg. by apply elem_of_nil in Hg.
  - apply (Hm [foo_address; foo_logged; bar_uint] foo_bool
             [constructor_field []; foo_logged; foo_string]).
    + reflexivity.
    + left. reflexivity.
    + apply Hni. intros g Hg. vm_compute in Hg.
      repeat (apply elem_of_cons in Hg as [-> | Hg]; [vm_compute; tauto|]).
      by apply elem_of_nil in Hg.
  - apply (Hm [foo_address; foo_logged; bar_uint; foo_bool; constructor_field []; foo_logged]
             foo_string []).
    + reflexivity.
    + left. reflexivity.
    + apply Hni. intros g Hg. vm_compute in Hg.
      repeat (apply elem_of_cons in Hg as [-> | Hg]; [vm_compute; tauto|]).
      by apply elem_of_nil in Hg.
  - apply (He [foo_address] foo_logged
             [bar_uint; foo_bool; constructor_field []; foo_logged; foo_string]).
    + reflexivity.
    + reflexivity.
    + apply Hni. intros g Hg. vm_compute in Hg. by apply elem_of_nil in Hg.
  - apply (He [foo_address; foo_logged; bar_uint; foo_bool; constructor_field []]
             foo_logged [foo_string]).
    + reflexivity.
    + reflexivity.
    + apply Hni. intros g Hg. vm_compute in Hg.
      repeat (apply elem_of_cons in Hg as [-> | Hg]; [vm_compute; tauto|]).
      by apply elem_of_nil in Hg.
Defined.

(** ** Selectors of disambiguated methods *)

Lemma overloaded_0 (base : string) : overloaded base 0 = (base ++ "0")%string.
Proof. reflexivity. Qed.

Lemma spec_signature_suffix_ne (name : string) (types : list Ty) :
  spec_signature name types ≠ spec_signature (name ++ "0") types.
Proof.
  unfold spec_signature. rewrite append_assoc.
  intros H%(inj (String.app name)). discriminate H.
Qed.

(** ** Words *)

Lemma Z_of_byte_of_Z (z : Z) : (0 ≤ z < 256)%Z → Z_of_byte (byte_of_Z z) = z.
Proof.
  intros Hz. unfold Z_of_byte, byte_of_Z.
  destruct (Byte.of_N (Z.to_N z)) as [b|] eqn:Hb.
  - apply Byte.to_of_N in Hb. simpl. rewrite Hb. lia.
  - apply Byte.of_N_None_iff in Hb. lia.
Qed.

Lemma length_be_bytes (n : nat) (z : Z) : length (be_bytes n z) = n.
Proof.
  revert z. induction n as [|n IH]; intros z; simpl; [done|].
  rewrite length_app, IH. simpl. lia.
Qed.

Lemma be_to_Z_snoc (bs : list byte) (b : byte) :
  be_to_Z (bs ++ [b]) = (be_to_Z bs * 256 + Z_of_byte b)%Z.
Proof. unfold be_to_Z. by rewrite foldl_app. Qed.

Lemma be_to_Z_be_bytes (n : nat) (z : Z) :
  be_to_Z (be_bytes n z) = (z mod 256 ^ Z.of_nat n)%Z.
Proof.
  revert z. induction n as [|n IH]; intros z.
  - simpl. by rewrite Z.mod_1_r.
  - simpl be_bytes. rewrite be_to_Z_snoc, IH.
    rewrite Z_of_byte_of_Z by (apply Z.mod_pos_bound; lia).
    rewrite Nat2Z.inj_succ, Z.pow_succ_r by lia.
    rewrite (Z.rem_mul_r z 256 (256 ^ Z.of_nat n)) by lia. lia.
Qed.

Lemma length_word (z : Z) : length (word z) = 32.
Proof. apply length_be_bytes. Qed.

Lemma be_to_Z_word (z : Z) : be_to_Z (word z) = (z mod word_max)%Z.
Proof. unfold word. rewrite be_to_Z_be_bytes. done. Qed.

Lemma read_word_app (pre rest : list byte) (z : Z) :
  read_word (pre ++ word z ++ rest) (length pre) = Ok (z mod word_max)%Z.
Proof.
  unfold read_word. rewrite decide_True.
  - rewrite drop_app_length, (take_app_length' _ _ 32) by apply (length_word z).
    by rewrite be_to_Z_word.
  - rewrite !length_app, length_word. lia.
Qed.

Lemma read_word_0 (rest : list byte) (z : Z) :
  read_word (word z ++ rest) 0 = Ok (z mod word_max)%Z.
Proof. apply (read_word_app [] rest z). Qed.

Lemma read_word_nat (pre rest : list byte) (n : nat) :
  (Z.of_nat n < word_max)%Z →
  read_word (pre ++ word (Z.of_nat n) ++ rest) (length pre) = Ok (Z.of_nat n).
Proof. intros Hn. rewrite read_word_app, Z.mod_small by lia. done. Qed.

Lemma read_word_nat_0 (rest : list byte) (n : nat) :
  (Z.of_nat n < word_max)%Z →
  read_word (word (Z.of_nat n) ++ rest) 0 = Ok (Z.of_nat n).
Proof. apply (read_word_nat [] rest n). Qed.

(** ** The head/tail layout *)

Lemma head_total_cons (dyn : bool) (e : list byte) (items : list (bool * list byte)) :
  head_total ((dyn, e) :: items) = (if dyn then 32 else length e) + head_total items.
Proof. reflexivity. Qed.

Lemma heads_dynamic (off : nat) (e : list byte) (items : list (bool * list byte)) :
  heads off ((true, e) :: items) = word (Z.of_nat off) ++ heads (off + length e) items.
Proof. reflexivity. Qed.

Lemma heads_static (off : nat) (e : list byte) (items : list (bool * list byte)) :
  heads off ((false, e) :: items) = e ++ heads off items.
Proof. reflexivity. Qed.

Lemma length_heads (items : list (bool * list byte)) (off : nat) :
  length (heads off items) = head_total items.
Proof.
  revert off. induction items as [|[[] e] items IH]; intros off; [done|..].
  - by rewrite heads_dynamic, head_total_cons, length_app, length_word, IH.
  - by rewrite heads_static, head_total_cons, length_app, IH.
Qed.

Lemma foldl_head_tail_step (total : nat) (items : list (bool * list byte)) :
  ∀ head tail,
    foldl (head_tail_step total) (head, tail) items
    = (head ++ heads (total + length tail) items, tail ++ tails items).
Proof.
  induction items as [|[[] e] items IH]; intros head tail.
  - simpl. by rewrite !app_nil_r.
  - rewrite heads_dynamic. cbn [foldl head_tail_step fst snd tails].
    rewrite IH, length_app, <- !(assoc_L (++)), Nat.add_assoc. done.
  - rewrite heads_static. cbn [foldl head_tail_step fst snd tails].
    rewrite IH, <- !(assoc_L (++)). done.
Qed.

Lemma head_tail_layout (items : list (bool * list byte)) :
  head_tail items = heads (head_total items) items ++ tails items.
Proof.
  unfold head_tail. rewrite foldl_head_tail_step. simpl.
  by rewrite Nat.add_0_r.
Qed.

Lemma length_head_tail (items : list (bool * list byte)) :
  length (head_tail items) = head_total items + length (tails items).
Proof. by rewrite head_tail_layout, length_app, length_heads. Qed.

(** ** Decoding a region laid out by the encoder *)

Lemma dec_items_cons (item : bool * nat * decoder) (items : list (bool * nat * decoder))
    (data : list byte) (pos : nat) (v : Value) (vs : list Value) :
  dec_item item data pos = Ok v →
  dec_items items data (pos + item.1.2) = Ok vs →
  dec_items (item :: items) data pos = Ok (v :: vs).
Proof. intros Hv Hvs. cbn [dec_items]. rewrite Hv. cbn. rewrite Hvs. done. Qed.

Lemma dec_item_static (hs : nat) (d : decoder) (pre e rest : list byte) (v : Value) :
  d (e ++ rest) = Ok v →
  dec_item (false, hs, d) (pre ++ e ++ rest) (length pre) = Ok v.
Proof. intros Hd. unfold dec_item. by rewrite drop_app_length. Qed.

Lemma dec_item_dynamic (hs : nat) (d : decoder) (pre mid e rest : list byte)
    (off : nat) (v : Value) :
  off = length pre + 32 + length mid →
  (Z.of_nat off < word_max)%Z →
  d (e ++ rest) = Ok v →
  dec_item (true, hs, d) (pre ++ word (Z.of_nat off) ++ mid ++ e ++ rest) (length pre)
  = Ok v.
Proof.
  intros Hoff Hmax Hd. unfold dec_item.
  rewrite read_word_nat by done. cbn.
  rewrite decide_True by (rewrite !length_app, length_word; lia).
  rewrite Nat2Z.id.
  replace (pre ++ word (Z.of_nat off) ++ mid ++ e ++ rest)
    with ((pre ++ word (Z.of_nat off) ++ mid) ++ e ++ rest)
    by (by rewrite <- !(assoc_L (++))).
  rewrite drop_app_length'; [done|].
  rewrite !length_app, length_word. lia.
Qed.

Lemma length_tails_le (dyn : bool) (e : list byte) (es : list (bool * list byte)) :
  length (tails ((dyn, e) :: es)) = (if dyn then length e else 0) + length (tails es).
Proof. destruct dyn; simpl; [by rewrite length_app | done]. Qed.

(** The members of a region are decoded from its layout: the head cursor
    is behind [hpre], and [tpre] is the part of the tail written so far. *)
Lemma dec_items_layout ds es vs :
  Coded ds es vs →
  ∀ hpre tpre rest,
    let off := length hpre + head_total es + length tpre in
    (Z.of_nat (off + length (tails es)) < word_max)%Z →
    dec_items ds (hpre ++ heads off es ++ tpre ++ tails es ++ rest) (length hpre)
    = Ok vs.
Proof.
  induction 1 as [|dyn hs d e v ds es vs Hd Hhs _ IH]; intros hpre tpre rest off Hmax.
  - done.
  - unfold off in *. clear off. rewrite head_total_cons, length_tails_le in Hmax.
    rewrite head_total_cons. destruct dyn.
    + subst hs. rewrite heads_dynamic. cbn [tails].
      set (off := length hpre + (32 + head_total es) + length tpre) in *.
      apply dec_items_cons.
      * rewrite <- !(assoc_L (++)).
        replace (heads (off + length e) es ++ tpre ++ e ++ tails es ++ rest)
          with ((heads (off + length e) es ++ tpre) ++ e ++ tails es ++ rest)
          by (by rewrite <- !(assoc_L (++))).
        apply dec_item_dynamic.
        -- rewrite length_app, length_heads. unfold off. lia.
        -- lia.
        -- apply Hd. lia.
      * cbn [fst snd].
        specialize (IH (hpre ++ word (Z.of_nat off)) (tpre ++ e) rest).
        rewrite !length_app, length_word in IH.
        replace (length hpre + 32 + head_total es + (length tpre + length e))
          with (off + length e) in IH by (unfold off; lia).
        rewrite <- !(assoc_L (++)) in IH. rewrite <- !(assoc_L (++)).
        apply IH. lia.
    + rewrite heads_static. cbn [tails].
      set (off := length hpre + (length e + head_total es) + length tpre) in *.
      apply dec_items_cons.
      * rewrite <- !(assoc_L (++)). apply dec_item_static. apply Hd. lia.
      * cbn [fst snd]. subst hs.
        specialize (IH (hpre ++ e) tpre rest).
        rewrite !length_app in IH.
        replace (length hpre + length e + head_total es + length tpre)
          with off in IH by (unfold off; lia).
        rewrite <- !(assoc_L (++)) in IH. rewrite <- !(assoc_L (++)).
        apply IH. lia.
Qed.

Lemma dec_items_head_tail ds es vs (rest : list byte) :
  Coded ds es vs →
  (Z.of_nat (length (head_tail es)) < word_max)%Z →
  dec_items ds (head_tail es ++ rest) 0 = Ok vs.
Proof.
  intros Hc Hmax. rewrite length_head_tail in Hmax.
  pose proof (dec_items_layout ds es vs Hc [] [] rest) as H.
  simpl in H. rewrite Nat.add_0_r in H.
  rewrite head_tail_layout, <- (assoc_L (++)). apply H. lia.
Qed.

(** ** Types, by induction through tuples *)

Lemma Ty_nested_ind (P : Ty → Prop) :
  (∀ bits, P (UnsignedInt bits)) →
  (∀ bits, P (SignedInt bits)) →
  P Address → P BoolT →
  (∀ n, P (FixedBytes n)) →
  P DynamicBytes → P StringT →
  (∀ fields, Forall (λ f : string * Ty, P f.2) fields → P (Tuple fields)) →
  (∀ elem len, P elem → P (FixedArray elem len)) →
  (∀ elem, P elem → P (DynamicArray elem)) →
  ∀ t, P t.
Proof.
  intros Hu Hs Ha Hb Hf Hd Hst Ht Hfa Hda.
  fix IH 1. intros [bits|bits| | |n| | |fields|elem len|elem].
  - apply Hu.
  - apply Hs.
  - apply Ha.
  - apply Hb.
  - apply Hf.
  - apply Hd.
  - apply Hst.
  - apply Ht. induction fields as [|[name t] fields IHf].
    + constructor.
    + constructor; [apply IH | apply IHf].
  - apply Hfa, IH.
  - apply Hda, IH.
Qed.

Lemma well_typed_Tuple (fields : list (string * Ty)) (v : Value) :
  well_typed (Tuple fields) v = true →
  ∃ vs, v = VTuple vs ∧ length fields = length vs ∧
        forallb id (zip_with (λ (f : string * Ty) v, well_typed f.2 v) fields vs) = true.
Proof.
  destruct v as [| | | | | |vs|]; try discriminate. simpl.
  intros [Hl Hf]%andb_prop. apply bool_decide_eq_true in Hl. by exists vs.
Qed.

Lemma well_typed_FixedArray (elem : Ty) (len : nat) (v : Value) :
  well_typed (FixedArray elem len) v = true →
  ∃ vs, v = VList vs ∧ length vs = len ∧ Forall (λ v, well_typed elem v = true) vs.
Proof.
  destruct v as [| | | | | | |vs]; try discriminate. simpl.
  intros [Hl Hf]%andb_prop. apply bool_decide_eq_true in Hl.
  exists vs. split_and!; [done..|]. apply Forall_forall. intros x Hx.
  rewrite forallb_forall in Hf. by apply Hf, list_elem_of_In.
Qed.

Lemma well_typed_DynamicArray (elem : Ty) (v : Value) :
  well_typed (DynamicArray elem) v = true →
  ∃ vs, v = VList vs ∧ (Z.of_nat (length vs) < word_max)%Z ∧
        Forall (λ v, well_typed elem v = true) vs.
Proof.
  destruct v as [| | | | | | |vs]; try discriminate. simpl.
  intros [Hl Hf]%andb_prop. apply bool_decide_eq_true in Hl.
  exists vs. split_and!; [done..|]. apply Forall_forall. intros x Hx.
  rewrite forallb_forall in Hf. by apply Hf, list_elem_of_In.
Qed.

Lemma head_size_dynamic (t : Ty) : is_dynamic t = true → head_size t = 32.
Proof. destruct t; simpl; try done; by intros ->. Qed.

(** A region of static members only is their concatenation. *)
Lemma head_tail_static (items : list (bool * list byte)) :
  Forall (λ item, item.1 = false) items →
  tails items = [] ∧ head_total items = sum_list (map (λ item, length item.2) items).
Proof.
  induction 1 as [|[dyn e] items Hdyn _ [IH1 IH2]]; [done|].
  simpl in Hdyn. subst dyn. rewrite head_total_cons. simpl. by rewrite IH1, IH2.
Qed.

Lemma enc_static_length (t : Ty) :
  ∀ v, well_typed t v = true → is_dynamic t = false →
       length (enc t v) = head_size t.
Proof.
  induction t as [bits|bits| | |n| | |fields IH|elem len IH|elem IH]
    using Ty_nested_ind; intros v Hv Hstatic; try discriminate.
  - destruct v; try discriminate. apply length_word.
  - destruct v; try discriminate. apply length_word.
  - destruct v as [| |a| | | | |]; try discriminate. simpl in *.
    apply bool_decide_eq_true in Hv. rewrite length_app, length_replicate. lia.
  - destruct v; try discriminate. apply length_word.
  - destruct v as [| | |bs| | | |]; try discriminate. simpl in *.
    apply andb_prop in Hv as [Hn Hl]. apply bool_decide_eq_true in Hn, Hl.
    rewrite length_app, length_replicate. lia.
  - apply well_typed_Tuple in Hv as (vs & -> & Hlen & Htyped).
    simpl in Hstatic. simpl head_size. rewrite Hstatic. cbn [enc].
    rewrite length_head_tail.
    assert (Forall (λ item : bool * list byte, item.1 = false)
              (zip_with (λ (f : string * Ty) v, (is_dynamic f.2, enc f.2 v)) fields vs)
            ∧ sum_list (map (λ item : bool * list byte, length item.2)
                 (zip_with (λ (f : string * Ty) v, (is_dynamic f.2, enc f.2 v)) fields vs))
              = sum_list (map (λ f : string * Ty, head_size f.2) fields)) as [Hall Hsum].
    { revert vs Hlen Htyped.
      induction IH as [|f fields IHf _ IHfs]; intros [|v vs] Hlen Htyped;
        try discriminate; [done|].
      simpl in Hstatic, Htyped, Hlen.
      apply orb_false_elim in Hstatic as [Hf Hfs].
      apply andb_prop in Htyped as [Hv Hvs].
      destruct (IHfs Hfs vs) as [H1 H2]; [lia | done |].
      split; [by constructor|]. simpl. rewrite H2. f_equal. by apply IHf. }
    destruct (head_tail_static _ Hall) as [-> ->]. simpl. lia.
  - apply well_typed_FixedArray in Hv as (vs & -> & Hlen & Htyped).
    simpl in Hstatic. simpl head_size. rewrite Hstatic. cbn [enc].
    rewrite length_head_tail.
    destruct (decide (len = 0)) as [-> | Hlen0].
    { destruct vs; [simpl; lia | discriminate]. }
    assert (is_dynamic elem = false) as Helem.
    { apply andb_false_iff in Hstatic as [H0 | H0]; [|done].
      apply bool_decide_eq_false in H0. lia. }
    subst len.
    assert (Forall (λ item : bool * list byte, item.1 = false)
              (map (λ v, (is_dynamic elem, enc elem v)) vs)
            ∧ sum_list (map (λ item : bool * list byte, length item.2)
                 (map (λ v, (is_dynamic elem, enc elem v)) vs))
              = length vs * head_size elem) as [Hall Hsum].
    { clear Hstatic Hlen0. induction Htyped as [|v vs Hv _ [IH1 IH2]]; [done|].
      split; [by constructor|]. simpl. rewrite IH2. f_equal. by apply IH. }
    destruct (head_tail_static _ Hall) as [-> ->]. simpl. lia.
Qed.

Lemma length_pad_right (bs : list byte) :
  ∃ k, length (pad_right bs) = 32 * k ∧ length bs ≤ 32 * k.
Proof.
  unfold pad_right. rewrite length_app, length_replicate.
  pose proof (Nat.div_mod_eq (length bs) 32) as Hdm.
  pose proof (Nat.mod_upper_bound (length bs) 32 ltac:(lia)) as Hlt.
  destruct (decide (length bs mod 32 = 0)) as [H0 | H0].
  - exists (length bs / 32). rewrite H0 in *. change ((32 - 0) mod 32) with 0. lia.
  - exists (S (length bs / 32)). rewrite Nat.mod_small by lia. lia.
Qed.

Lemma head_tail_slots (items : list (bool * list byte)) :
  Forall (λ item, ∃ k, length item.2 = 32 * k) items →
  ∃ k, length (head_tail items) = 32 * k.
Proof.
  intros Hall. rewrite length_head_tail.
  induction Hall as [|[dyn e] items [k Hk] _ [k' IH]]; [by exists 0|].
  rewrite head_total_cons, length_tails_le. simpl in Hk.
  destruct dyn; [exists (1 + k + k') | exists (k + k')]; lia.
Qed.

(** Every encoding is a whole number of 32-byte slots. *)
Lemma enc_slots (t : Ty) :
  ∀ v, well_typed t v = true → ∃ k, length (enc t v) = 32 * k.
Proof.
  induction t as [bits|bits| | |n| | |fields IH|elem len IH|elem IH]
    using Ty_nested_ind; intros v Hv.
  - destruct v; try discriminate. exists 1. apply length_word.
  - destruct v; try discriminate. exists 1. apply length_word.
  - exists 1. by apply (enc_static_length Address).
  - exists 1. by apply (enc_static_length BoolT).
  - exists 1. by apply (enc_static_length (FixedBytes n)).
  - destruct v as [| | | |bs| | |]; try discriminate. cbn [enc].
    destruct (length_pad_right bs) as (k & Hk & _).
    exists (S k). rewrite length_app, length_word. lia.
  - destruct v as [| | | | |s| |]; try discriminate. cbn [enc].
    destruct (length_pad_right (bytes_of_string s)) as (k & Hk & _).
    exists (S k). rewrite length_app, length_word. lia.
  - apply well_typed_Tuple in Hv as (vs & -> & Hlen & Htyped). cbn [enc].
    apply head_tail_slots. revert vs Hlen Htyped.
    induction IH as [|f fields IHf _ IHfs]; intros [|v vs] Hlen Htyped;
      try discriminate; [constructor|].
    simpl in Htyped, Hlen. apply andb_prop in Htyped as [Hv Hvs].
    simpl. constructor; [by apply IHf | apply IHfs; [lia | done]].
  - apply well_typed_FixedArray in Hv as (vs & -> & Hlen & Htyped). cbn [enc].
    apply head_tail_slots, Forall_map.
    eapply Forall_impl; [exact Htyped|]. intros v Hv. by apply IH.
  - apply well_typed_DynamicArray in Hv as (vs & -> & Hlen & Htyped). cbn [enc].
    destruct (head_tail_slots (map (λ v, (is_dynamic elem, enc elem v)) vs)) as [k Hk].
    { apply Forall_map. eapply Forall_impl; [exact Htyped|]. intros v Hv. by apply IH. }
    exists (S k). rewrite length_app, length_word. lia.
Qed.

(** ** Decoding what the encoder wrote *)

Lemma valid_bits_pow (bits : nat) :
  valid_bits bits = true → (0 < Z.of_nat bits ∧ 2 ^ Z.of_nat bits ≤ word_max)%Z.
Proof.
  unfold valid_bits. intros [H _]%andb_prop. apply bool_decide_eq_true in H.
  split; [lia|]. unfold word_max. apply Z.pow_le_mono_r; lia.
Qed.

Lemma dec_UnsignedInt (bits : nat) (z : Z) (rest : list byte) :
  well_typed (UnsignedInt bits) (VInt z) = true →
  dec (UnsignedInt bits) (enc (UnsignedInt bits) (VInt z) ++ rest) = Ok (VInt z).
Proof.
  cbn [well_typed enc dec]. intros [Hb Hz]%andb_prop.
  apply bool_decide_eq_true in Hz. apply valid_bits_pow in Hb.
  rewrite read_word_0, Z.mod_small by lia. done.
Qed.

Lemma dec_SignedInt (bits : nat) (z : Z) (rest : list byte) :
  well_typed (SignedInt bits) (VInt z) = true →
  dec (SignedInt bits) (enc (SignedInt bits) (VInt z) ++ rest) = Ok (VInt z).
Proof.
  cbn [well_typed enc dec]. intros [Hb Hz]%andb_prop.
  apply bool_decide_eq_true in Hz. apply valid_bits_pow in Hb as [Hpos Hmax].
  assert (2 * 2 ^ (Z.of_nat bits - 1) ≤ word_max)%Z as Hhalf.
  { rewrite <- Z.pow_succ_r by lia. by replace (Z.succ (Z.of_nat bits - 1))
      with (Z.of_nat bits) by lia. }
  assert (word_max = 2 * 2 ^ 255)%Z as Hw by reflexivity.
  rewrite read_word_0. cbn.
  destruct (decide (0 ≤ z)%Z) as [Hz0 | Hz0].
  - rewrite Z.mod_small by lia. rewrite decide_False by lia. reflexivity.
  - replace (z mod word_max)%Z with (z + word_max)%Z.
    + rewrite decide_True by lia. do 2 f_equal; lia.
    + rewrite <- (Z.mod_small (z + word_max) word_max) by lia.
      rewrite <- (Z_mod_plus_full z 1 word_max). f_equal; lia.
Qed.

Lemma dec_BoolT (b : bool) (rest : list byte) :
  dec BoolT (enc BoolT (VBool b) ++ rest) = Ok (VBool b).
Proof. cbn [enc dec]. rewrite read_word_0. by destruct b. Qed.

Lemma dec_Address (a rest : list byte) :
  length a = 20 →
  dec Address (enc Address (VAddress a) ++ rest) = Ok (VAddress a).
Proof.
  intros Ha. cbn [enc dec]. rewrite Ha.
  rewrite decide_True by (rewrite !length_app, length_replicate; lia).
  rewrite take_app_length' by (rewrite length_app, length_replicate; lia).
  rewrite drop_app_length' by (by rewrite length_replicate). done.
Qed.

Lemma dec_FixedBytes (n : nat) (bs rest : list byte) :
  n ≤ 32 → length bs = n →
  dec (FixedBytes n) (enc (FixedBytes n) (VFixedBytes bs) ++ rest) = Ok (VFixedBytes bs).
Proof.
  intros Hn Hbs. cbn [enc dec].
  rewrite decide_True by (rewrite !length_app, length_replicate; lia).
  rewrite take_app_length' by (rewrite length_app, length_replicate; lia).
  rewrite take_app_length' by done. done.
Qed.

Lemma dec_bytes_pad (bs rest : list byte) :
  (Z.of_nat (length bs) < word_max)%Z →
  dec_bytes (word (Z.of_nat (length bs)) ++ pad_right bs ++ rest) = Ok bs.
Proof.
  intros Hmax. unfold dec_bytes.
  rewrite read_word_nat_0 by done. cbn.
  destruct (length_pad_right bs) as (k & Hk & Hle).
  rewrite decide_True by (rewrite !length_app, length_word; lia).
  rewrite Nat2Z.id, drop_app_length' by (by rewrite length_word).
  unfold pad_right. rewrite <- (assoc_L (++)). by rewrite take_app_length.
Qed.

Lemma Coded_replicate (elem : Ty) (vs : list Value) :
  (∀ v, well_typed elem v = true →
        (Z.of_nat (length (enc elem v)) < word_max)%Z →
        ∀ rest, dec elem (enc elem v ++ rest) = Ok v) →
  Forall (λ v, well_typed elem v = true) vs →
  Coded (replicate (length vs) (is_dynamic elem, head_size elem, dec elem))
        (map (λ v, (is_dynamic elem, enc elem v)) vs) vs.
Proof.
  intros IH. induction 1 as [|v vs Hv _ IHvs]; simpl; constructor; [| |done].
  - intros Hmax rest. by apply IH.
  - destruct (is_dynamic elem) eqn:Hdyn;
      [by apply head_size_dynamic | by apply enc_static_length].
Qed.

Lemma Coded_fields (fields : list (string * Ty)) :
  Forall (λ f : string * Ty,
            ∀ v, well_typed f.2 v = true →
                 (Z.of_nat (length (enc f.2 v)) < word_max)%Z →
                 ∀ rest, dec f.2 (enc f.2 v ++ rest) = Ok v) fields →
  ∀ vs, length fields = length vs →
        forallb id (zip_with (λ (f : string * Ty) v, well_typed f.2 v) fields vs) = true →
        Coded (map (λ f : string * Ty, (is_dynamic f.2, head_size f.2, dec f.2)) fields)
              (zip_with (λ (f : string * Ty) v, (is_dynamic f.2, enc f.2 v)) fields vs)
              vs.
Proof.
  induction 1 as [|f fields IHf _ IHfs]; intros [|v vs] Hlen Htyped;
    try discriminate; [constructor|].
  simpl in Htyped, Hlen. apply andb_prop in Htyped as [Hv Hvs].
  simpl. constructor.
  - intros Hmax rest. by apply IHf.
  - destruct (is_dynamic f.2) eqn:Hdyn;
      [by apply head_size_dynamic | by apply enc_static_length].
  - apply IHfs; [lia | done].
Qed.

(** The head of a region of [n] members of one type has [n] head sizes. *)
Lemma head_total_elems (elem : Ty) (vs : list Value) :
  Forall (λ v, well_typed elem v = true) vs →
  head_total (map (λ v, (is_dynamic elem, enc elem v)) vs)
  = length vs * head_size elem.
Proof.
  induction 1 as [|v vs Hv _ IH]; [done|].
  simpl map. rewrite head_total_cons, IH. simpl. f_equal.
  destruct (is_dynamic elem) eqn:Hdyn;
    [by rewrite head_size_dynamic | by apply enc_static_length].
Qed.

(** A value that fits its type is decoded from its encoding, whatever
    follows the encoding, as long as the encoding fits a length slot. *)
Lemma dec_enc (t : Ty) :
  ∀ v, well_typed t v = true →
       (Z.of_nat (length (enc t v)) < word_max)%Z →
       ∀ rest, dec t (enc t v ++ rest) = Ok v.
Proof.
  induction t as [bits|bits| | |n| | |fields IH|elem len IH|elem IH]
    using Ty_nested_ind; intros v Hv Hmax rest.
  - destruct v; try discriminate. by apply dec_UnsignedInt.
  - destruct v; try discriminate. by apply dec_SignedInt.
  - destruct v as [| |a| | | | |]; try discriminate.
    apply dec_Address. simpl in Hv. by apply bool_decide_eq_true in Hv.
  - destruct v; try discriminate. apply dec_BoolT.
  - destruct v as [| | |bs| | | |]; try discriminate.
    simpl in Hv. apply andb_prop in Hv as [Hn Hl].
    apply bool_decide_eq_true in Hn, Hl. apply dec_FixedBytes; [lia | done].
  - destruct v as [| | | |bs| | |]; try discriminate.
    simpl in Hv. apply bool_decide_eq_true in Hv.
    cbn [enc dec]. rewrite <- (assoc_L (++)), dec_bytes_pad by done. done.
  - destruct v as [| | | | |s| |]; try discriminate.
    simpl in Hv. apply bool_decide_eq_true in Hv.
    cbn [enc dec]. rewrite <- (assoc_L (++)), dec_bytes_pad by done. cbn.
    unfold bytes_of_string. by rewrite string_of_list_byte_of_string.
  - apply well_typed_Tuple in Hv as (vs & -> & Hlen & Htyped).
    cbn [enc dec] in *.
    rewrite (dec_items_head_tail _ _ vs); [done | by apply Coded_fields | done].
  - apply well_typed_FixedArray in Hv as (vs & -> & Hlen & Htyped).
    cbn [enc dec] in *. subst len.
    rewrite (dec_items_head_tail _ _ vs); [done | by apply Coded_replicate | done].
  - apply well_typed_DynamicArray in Hv as (vs & -> & Hlen & Htyped).
    cbn [enc dec] in *. rewrite length_app, length_word in Hmax.
    rewrite <- (assoc_L (++)), read_word_nat_0 by done. cbn.
    rewrite decide_True.
    + rewrite Nat2Z.id, drop_app_length' by (by rewrite length_word).
      rewrite (dec_items_head_tail _ _ vs); [done | by apply Coded_replicate | lia].
    + rewrite !length_app, length_word, length_head_tail, head_total_elems by done.
      lia.
Qed.

(** ** Round trip *)

Lemma args_Coded (arguments : Arguments) :
  ∀ values,
    length values = length arguments →
    args_well_typed arguments values = true →
    Coded
      (map (λ a, (is_dynamic (ArgType a), head_size (ArgType a), dec (ArgType a)))
         arguments)
      (zip_with (λ a v, (is_dynamic (ArgType a), enc (ArgType a) v)) arguments values)
      values
    ∧ Forall (λ item : bool * list byte, ∃ k, length item.2 = 32 * k)
        (zip_with (λ a v, (is_dynamic (ArgType a), enc (ArgType a) v)) arguments values).
Proof.
  unfold args_well_typed.
  induction arguments as [|a arguments IH]; intros [|v values] Hlen Htyped;
    try discriminate; [split; constructor|].
  simpl in Htyped, Hlen. apply andb_prop in Htyped as [Hv Hvs].
  destruct (IH values) as [IH1 IH2]; [lia | done |].
  simpl. split.
  - constructor; [| |done].
    + intros Hmax rest. by apply dec_enc.
    + destruct (is_dynamic (ArgType a)) eqn:Hdyn;
        [by apply head_size_dynamic | by apply enc_static_length].
  - constructor; [|done]. by apply enc_slots.
Qed.

Lemma ArgumentsPack_Ok (arguments : Arguments) (values : list Value) (bs : list byte) :
  ArgumentsPack arguments values = Ok bs ↔
  length values = length arguments ∧
  args_well_typed arguments values = true ∧
  bs = head_tail
         (zip_with (λ a v, (is_dynamic (ArgType a), enc (ArgType a) v))
            arguments values).
Proof.
  unfold ArgumentsPack. case_decide as Hlen.
  - split; [discriminate | intros [? _]; done].
  - destruct (args_well_typed arguments values); simpl.
    + split; [intros [= <-]; done | intros (_ & _ & ->); done].
    + split; [discriminate | intros (_ & ? & _); done].
Qed.

(** C1 (counterexample): the empty schema packs no values into no bytes,
    and the decoder rejects the empty input; so does a schema whose only
    member is an array of no elements. *)
Lemma C1_empty_encoding_not_decoded :
  ArgumentsPack [] [] = Ok [] ∧
  ArgumentsUnpack [] [] = Err (DecodingError "empty input") ∧
  ArgumentsPack [argument "none" (FixedArray (UnsignedInt 256) 0)] [VList []] = Ok [] ∧
  ArgumentsUnpack [argument "none" (FixedArray (UnsignedInt 256) 0)] []
    = Err (DecodingError "empty input").
Proof. split_and!; vm_compute; reflexivity. Qed.

(** ** Round trip, by the head of the schema *)

Lemma args_head_total (arguments : Arguments) :
  ∀ values,
    length values = length arguments →
    args_well_typed arguments values = true →
    head_total
      (zip_with (λ a v, (is_dynamic (ArgType a), enc (ArgType a) v)) arguments values)
    = schema_head_size arguments.
Proof.
  unfold args_well_typed, schema_head_size.
  induction arguments as [|a arguments IH]; intros [|v values] Hlen Htyped;
    try discriminate; [done|].
  simpl in Htyped, Hlen. apply andb_prop in Htyped as [Hv Hvs].
  simpl zip_with. rewrite head_total_cons, IH by (done || lia). simpl. f_equal.
  destruct (is_dynamic (ArgType a)) eqn:Hdyn;
    [by rewrite head_size_dynamic | by apply enc_static_length].
Qed.

Lemma head_total_0_static (items : list (bool * list byte)) :
  head_total items = 0 → Forall (λ item, item.1 = false) items.
Proof.
  induction items as [|[dyn e] items IH]; [constructor|].
  rewrite head_total_cons. intros H0. destruct dyn; [lia|].
  constructor; [done | apply IH; lia].
Qed.

Lemma head_tail_empty_iff (items : list (bool * list byte)) :
  head_tail items = [] ↔ head_total items = 0.
Proof.
  split.
  - intros H%(f_equal length). rewrite length_head_tail in H. simpl in H. lia.
  - intros H0. apply length_zero_iff_nil. rewrite length_head_tail, H0.
    destruct (head_tail_static items (head_total_0_static items H0)) as [-> _].
    done.
Qed.

(** C1 (amended): for every argument schema and every list of values, one
    per argument and each fitting its type, the encoder returns bytes, a
    whole number of 32-byte slots and at least the head of the schema.  The
    bytes are empty exactly when the schema has no head byte (the empty
    schema, or members of no size only), and then the decoder rejects them
    as empty input; for every schema with a head byte (and fewer than 2^256
    bytes encoded, so that every offset fits its slot), decoding the bytes
    with the same schema yields the values. *)
Theorem C1_unpack_pack_round_trip (arguments : Arguments) (values : list Value) :
  length values = length arguments →
  args_well_typed arguments values = true →
  ∃ bs,
    ArgumentsPack arguments values = Ok bs ∧
    length bs mod 32 = 0 ∧
    schema_head_size arguments ≤ length bs ∧
    (bs = [] ↔ schema_head_size arguments = 0) ∧
    (schema_head_size arguments = 0 →
     ArgumentsUnpack arguments bs = Err (DecodingError "empty input")) ∧
    (0 < schema_head_size arguments →
     (Z.of_nat (length bs) < word_max)%Z →
     ArgumentsUnpack arguments bs = Ok values).
Proof.
  intros Hlen Htyped.
  destruct (args_Coded arguments values Hlen Htyped) as [Hcoded Hslots].
  pose proof (args_head_total arguments values Hlen Htyped) as Hhead.
  eexists. split; [by apply ArgumentsPack_Ok|].
  destruct (head_tail_slots _ Hslots) as [k Hk].
  pose proof (head_tail_empty_iff
    (zip_with (λ a v, (is_dynamic (ArgType a), enc (ArgType a) v)) arguments values))
    as Hempty.
  rewrite Hhead in Hempty.
  split_and!.
  - rewrite Hk, Nat.mul_comm. apply Nat.Div0.mod_mul.
  - rewrite length_head_tail, Hhead. lia.
  - exact Hempty.
  - intros H0. apply Hempty in H0. rewrite H0. reflexivity.
  - intros Hpos Hmax. unfold ArgumentsUnpack.
    rewrite decide_False by (rewrite length_head_tail, Hhead; lia).
    rewrite decide_False by (rewrite Hk, Nat.mul_comm, Nat.Div0.mod_mul; lia).
    unfold UnpackValues.
    rewrite <- (app_nil_r (head_tail _)). by apply dec_items_head_tail.
Qed.

Lemma C1_round_trip_witness :
  ∃ bs,
    ArgumentsPack nested_schema nested_values = Ok bs ∧
    length bs = 576 ∧
    ArgumentsUnpack nested_schema bs = Ok nested_values.
Proof.
  destruct (C1_unpack_pack_round_trip nested_schema nested_values)
    as (bs & Hpack & Hmod & Hhead & Hempty & Hzero & Hunpack).
  - reflexivity.
  - vm_compute. reflexivity.
  - assert (length bs = 576) as Hlen.
    { apply ArgumentsPack_Ok in Hpack as (_ & _ & ->). vm_compute. reflexivity. }
    exists bs. split_and!; [done | done |].
    apply Hunpack.
    + vm_compute. lia.
    + rewrite Hlen. vm_compute. reflexivity.
Defined.

(** * Further properties of the registry *)

(** ** What loading keeps in the two maps *)

Section RegisterFold.
Context {P V : Type} (build : string → P → V).

Lemma foldl_register_sound (entries : list (string * P)) :
  ∀ (m : gmap string V) k v,
    foldl (register build) m entries !! k = Some v →
    m !! k = Some v ∨
    ∃ e j, e ∈ entries ∧ k = candidate e.1 j ∧ v = build k e.2.
Proof.
  induction entries as [|e entries IH]; intros m k v Hk; simpl in Hk; [by left|].
  apply IH in Hk as [Hk | (e' & j & He' & -> & ->)].
  - unfold register in Hk.
    destruct (decide (resolve_name m e.1 = k)) as [<- | Hne].
    + rewrite lookup_insert_eq in Hk. injection Hk as <-.
      destruct (resolve_name_spec m e.1) as (j & Hj & _).
      right. exists e, j. split; [by apply elem_of_cons; left|]. by rewrite Hj.
    + rewrite lookup_insert_ne in Hk by done. by left.
  - right. exists e', j. split; [by apply elem_of_cons; right | done].
Qed.

Lemma foldl_register_complete (entries : list (string * P)) :
  ∀ (m : gmap string V) e,
    e ∈ entries →
    ∃ j, foldl (register build) m entries !! candidate e.1 j
         = Some (build (candidate e.1 j) e.2).
Proof.
  induction entries as [|e0 entries IH]; intros m e He.
  - by apply elem_of_nil in He.
  - apply elem_of_cons in He as [-> | He]; [|by apply IH].
    destruct (resolve_name_spec m e0.1) as (j & Hj & _).
    exists j. simpl. apply foldl_register_lookup_old.
    unfold register. rewrite Hj. apply lookup_insert_eq.
Qed.

Lemma foldl_register_size (entries : list (string * P)) :
  ∀ m : gmap string V,
    size (foldl (register build) m entries) = size m + length entries.
Proof.
  induction entries as [|e entries IH]; intros m; simpl; [lia|].
  rewrite IH. unfold register.
  rewrite map_size_insert_None by apply resolve_name_fresh. lia.
Qed.
End RegisterFold.

Lemma elem_of_declared (fields : list Field) (e : string * Field) :
  e ∈ declared fields ↔ ∃ field, field ∈ fields ∧ e = (FName field, field).
Proof.
  unfold declared. rewrite list_elem_of_fmap. split.
  - intros (field & -> & Hin). by exists field.
  - intros (field & Hin & ->). by exists field.
Qed.

(** X1: in a loaded registry every method is stored under its own name and
    every event under its own name: the key and the [Name] field agree. *)
Theorem X1_registered_name_is_key (abi : ABI) (fields : list Field) :
  (∀ k m, Mccmods (UnmarshalJSON abi fields) !! k = Some m → Name m = k) ∧
  (∀ k ev, Events (UnmarshalJSON abi fields) !! k = Some ev → EvName ev = k).
Proof.
  unfold UnmarshalJSON. rewrite Mccmods_foldl, Events_foldl. simpl. split.
  - intros k m [Hk | (e & j & _ & _ & ->)]%foldl_register_sound; [|done].
    by rewrite lookup_empty in Hk.
  - intros k ev [Hk | (e & j & _ & _ & ->)]%foldl_register_sound; [|done].
    by rewrite lookup_empty in Hk.
Qed.

Lemma X1_registered_name_witness :
  Name <$> Mccmods (UnmarshalJSON zero_ABI overloaded_fields) !! "foo1"%string
    = Some "foo1"%string.
Proof.
  destruct (X1_registered_name_is_key zero_ABI overloaded_fields) as [Hm _].
  destruct (Mccmods (UnmarshalJSON zero_ABI overloaded_fields) !! "foo1"%string)
    as [m|] eqn:Hlook.
  - simpl. f_equal. by apply Hm.
  - vm_compute in Hlook. discriminate Hlook.
Defined.

(** X2: every method of a loaded registry stems from a function entry of
    the document (an entry of kind [function] or of no kind): its key is the
    declared name of that entry or that name with a number appended, and
    constancy, inputs and outputs are the entry's; likewise every event
    stems from an event entry. *)
Theorem X2_registered_entries_stem_from_document (abi : ABI) (fields : list Field) :
  (∀ k m, Mccmods (UnmarshalJSON abi fields) !! k = Some m →
     ∃ field j, field ∈ fields ∧ is_function field ∧
                k = candidate (FName field) j ∧ m = build_mccmod k field) ∧
  (∀ k ev, Events (UnmarshalJSON abi fields) !! k = Some ev →
     ∃ field j, field ∈ fields ∧ is_event field ∧
                k = candidate (FName field) j ∧ ev = build_event k field).
Proof.
  unfold UnmarshalJSON. rewrite Mccmods_foldl, Events_foldl. simpl. split.
  - intros k m [Hk | (e & j & He & -> & ->)]%foldl_register_sound.
    { by rewrite lookup_empty in Hk. }
    apply elem_of_declared in He as (field & [Hf Hin]%list_elem_of_filter & ->).
    by exists field, j.
  - intros k ev [Hk | (e & j & He & -> & ->)]%foldl_register_sound.
    { by rewrite lookup_empty in Hk. }
    apply elem_of_declared in He as (field & [Hf Hin]%list_elem_of_filter & ->).
    by exists field, j.
Qed.

Lemma X2_registered_entries_witness :
  ∃ field j, field ∈ clashing_fields ∧ is_function field ∧
             "foo1"%string = candidate (FName field) j ∧
             build_mccmod "foo1" foo_bool = build_mccmod "foo1" field.
Proof.
  destruct (X2_registered_entries_stem_from_document zero_ABI clashing_fields)
    as [Hm _].
  apply (Hm "foo1"%string (build_mccmod "foo1" foo_bool)).
  vm_compute. reflexivity.
Defined.

(** X3: no entry is lost: every function entry of the document is in the
    methods map of the loaded registry, under its declared name or that name
    with a number appended, with its constancy, inputs and outputs; every
    event entry is in the events map in the same way. *)
Theorem X3_every_entry_is_registered (abi : ABI) (fields : list Field)
    (field : Field) :
  field ∈ fields →
  (is_function field →
     ∃ j, Mccmods (UnmarshalJSON abi fields) !! candidate (FName field) j
          = Some (build_mccmod (candidate (FName field) j) field)) ∧
  (is_event field →
     ∃ j, Events (UnmarshalJSON abi fields) !! candidate (FName field) j
          = Some (build_event (candidate (FName field) j) field)).
Proof.
  intros Hin. unfold UnmarshalJSON. rewrite Mccmods_foldl, Events_foldl. simpl.
  split; intros Hf.
  - apply (foldl_register_complete build_mccmod _ ∅ (FName field, field)).
    apply elem_of_declared. exists field. split; [|done].
    by apply list_elem_of_filter.
  - apply (foldl_register_complete build_event _ ∅ (FName field, field)).
    apply elem_of_declared. exists field. split; [|done].
    by apply list_elem_of_filter.
Qed.

Lemma X3_every_entry_witness :
  ∃ j, Mccmods (UnmarshalJSON zero_ABI clashing_fields) !! candidate "foo" j
       = Some (build_mccmod (candidate "foo" j) foo_bool).
Proof.
  destruct (X3_every_entry_is_registered zero_ABI clashing_fields foo_bool)
    as [Hm _].
  - unfold clashing_fields. do 2 (apply elem_of_cons; right).
    apply elem_of_cons. by left.
  - apply Hm. left. reflexivity.
Defined.

(** X4: the methods map of a loaded registry has as many entries as the
    document has function entries, and the events map as many as it has event
    entries: repeated names never overwrite one another. *)
Theorem X4_one_key_per_entry (abi : ABI) (fields : list Field) :
  size (Mccmods (UnmarshalJSON abi fields)) = length (filter is_function fields) ∧
  size (Events (UnmarshalJSON abi fields)) = length (filter is_event fields).
Proof.
  unfold UnmarshalJSON. rewrite Mccmods_foldl, Events_foldl. simpl.
  rewrite !foldl_register_size, map_size_empty. unfold declared.
  by rewrite !length_map.
Qed.

(** X5: entries appended to a document leave what the entries before them
    registered as it is: a key of the registry loaded from the shorter
    document holds the same method, or event, after loading the longer
    one. *)
Theorem X5_later_entries_keep_earlier_keys (abi : ABI) (pre post : list Field) :
  (∀ k m, Mccmods (UnmarshalJSON abi pre) !! k = Some m →
          Mccmods (UnmarshalJSON abi (pre ++ post)) !! k = Some m) ∧
  (∀ k ev, Events (UnmarshalJSON abi pre) !! k = Some ev →
           Events (UnmarshalJSON abi (pre ++ post)) !! k = Some ev).
Proof.
  unfold UnmarshalJSON. rewrite !foldl_app. split; intros k x Hk.
  - rewrite (Mccmods_foldl post). by apply foldl_register_lookup_old.
  - rewrite (Events_foldl post). by apply foldl_register_lookup_old.
Qed.

Lemma X5_later_entries_witness :
  Mccmods (UnmarshalJSON zero_ABI ([foo_address; foo_bool] ++ [foo0_uint; foo_string]))
    !! "foo0"%string = Some (build_mccmod "foo0" foo_bool).
Proof.
  destruct (X5_later_entries_keep_earlier_keys zero_ABI [foo_address; foo_bool]
              [foo0_uint; foo_string]) as [Hm _].
  apply Hm. vm_compute. reflexivity.
Defined.

(** ** The constructor and the entry kinds *)

Lemma Constructor_foldl_none (fields : list Field) :
  ∀ abi : ABI,
    Forall (λ f, ¬ is_constructor f) fields →
    Constructor (foldl UnmarshalJSON_field abi fields) = Constructor abi.
Proof.
  induction fields as [|f fields IH]; intros abi Hall; [done|].
  apply Forall_cons in Hall as [Hf Hall]. simpl foldl. rewrite IH by done.
  unfold UnmarshalJSON_field. rewrite decide_False by done.
  repeat case_decide; done.
Qed.

(** X6: the constructor of a loaded registry is made from the last
    constructor entry of the document, of which only the inputs are kept
    (no name, not constant, no outputs); a document without a constructor
    entry leaves the constructor of the receiver in place, while the
    methods and events of the receiver are always dropped. *)
Theorem X6_last_constructor_entry_wins (abi : ABI) (fields : list Field) :
  (Forall (λ f, ¬ is_constructor f) fields →
     Constructor (UnmarshalJSON abi fields) = Constructor abi) ∧
  (∀ pre field post,
     fields = pre ++ field :: post →
     is_constructor field →
     Forall (λ f, ¬ is_constructor f) post →
     Constructor (UnmarshalJSON abi fields) = constructor_of field) ∧
  Mccmods (UnmarshalJSON abi fields) = Mccmods (UnmarshalJSON zero_ABI fields) ∧
  Events (UnmarshalJSON abi fields) = Events (UnmarshalJSON zero_ABI fields).
Proof.
  split_and!.
  - intros Hall. unfold UnmarshalJSON. by rewrite Constructor_foldl_none.
  - intros pre field post -> Hc Hpost. unfold UnmarshalJSON.
    rewrite foldl_app. simpl foldl. rewrite Constructor_foldl_none by done.
    unfold UnmarshalJSON_field. by rewrite decide_True.
  - unfold UnmarshalJSON. by rewrite !Mccmods_foldl.
  - unfold UnmarshalJSON. by rewrite !Events_foldl.
Qed.

Lemma X6_last_constructor_witness :
  Constructor (UnmarshalJSON example_ABI [foo_address; foo_logged])
    = Constructor example_ABI ∧
  Constructor
    (UnmarshalJSON example_ABI
       ([constructor_field [argument "a" Address]]
        ++ constructor_field [argument "b" BoolT] :: [foo_address]))
    = constructor_of (constructor_field [argument "b" BoolT]).
Proof.
  split.
  - destruct (X6_last_constructor_entry_wins example_ABI [foo_address; foo_logged])
      as (H & _). apply H.
    repeat constructor; vm_compute; discriminate.
  - destruct (X6_last_constructor_entry_wins example_ABI
                ([constructor_field [argument "a" Address]]
                 ++ constructor_field [argument "b" BoolT] :: [foo_address]))
      as (_ & H & _).
    apply (H [constructor_field [argument "a" Address]]
             (constructor_field [argument "b" BoolT]) [foo_address]).
    + reflexivity.
    + reflexivity.
    + repeat constructor; vm_compute; discriminate.
Defined.

(** X7: entries of a kind other than [constructor], [function], none and
    [event] are skipped without an error: loading a document gives the same
    registry as loading it without them. *)
Theorem X7_other_kinds_are_skipped (abi : ABI) (fields : list Field) :
  UnmarshalJSON abi fields = UnmarshalJSON abi (filter known_kind fields).
Proof.
  unfold UnmarshalJSON.
  generalize ({| Constructor := Constructor abi; Mccmods := ∅; Events := ∅ |}).
  induction fields as [|f fields IH]; intros a; [done|].
  rewrite filter_cons. destruct (decide (known_kind f)) as [Hk | Hk].
  - simpl foldl. apply IH.
  - simpl foldl. rewrite <- IH. f_equal.
    unfold UnmarshalJSON_field, known_kind in *.
    rewrite !decide_False by tauto. done.
Qed.

(** ** Lookups by id *)

Lemma range_find_first (hash256 : list byte → list byte) (id : list byte)
    (pre post : list (string * Mccmod)) (k : string) (m : Mccmod) :
  Forall (λ e : string * Mccmod, Id hash256 e.2 ≠ id) pre →
  Id hash256 m = id →
  range_find hash256 id (pre ++ (k, m) :: post) = Some m.
Proof.
  intros Hpre Hm. induction Hpre as [|[k' m'] pre Hne _ IH]; simpl.
  - by rewrite decide_True.
  - simpl in Hne. by rewrite decide_False.
Qed.

(** X8: the lookup by selector returns the first method, in the order the
    map is ranged over, whose id is the first 4 bytes of the input; methods
    further on with the same id are not looked at, and collisions are not
    reported. *)
Theorem X8_first_match_wins
    (hash256 : list byte → list byte)
    (pre post : list (string * Mccmod)) (k : string) (m : Mccmod)
    (sigdata : list byte) :
  4 ≤ length sigdata →
  Forall (λ e : string * Mccmod, Id hash256 e.2 ≠ take 4 sigdata) pre →
  Id hash256 m = take 4 sigdata →
  MccmodById hash256 (pre ++ (k, m) :: post) sigdata = Ok m.
Proof.
  intros Hlen Hpre Hm. unfold MccmodById.
  rewrite decide_False by lia. by rewrite (range_find_first _ _ pre post k m).
Qed.

Lemma X8_first_match_witness :
  MccmodById prefix_hash
    ([("bar"%string, build_mccmod "bar" bar_uint)]
     ++ ("sendAll"%string, sendAll_mccmod) :: [("send"%string, send_mccmod)])
    [x73; x65; x6e; x64; x00] = Ok sendAll_mccmod ∧
  MccmodById prefix_hash
    ([("bar"%string, build_mccmod "bar" bar_uint)]
     ++ ("send"%string, send_mccmod) :: [("sendAll"%string, sendAll_mccmod)])
    [x73; x65; x6e; x64; x00] = Ok send_mccmod.
Proof.
  split; apply X8_first_match_wins.
  - simpl. lia.
  - repeat constructor. vm_compute. discriminate.
  - vm_compute. reflexivity.
  - simpl. lia.
  - repeat constructor. vm_compute. discriminate.
  - vm_compute. reflexivity.
Defined.

(** X9: the call data packed for a registered method resolves, by its
    selector, to a registered method with the same id as the one packed
    for, whatever the arguments are (the hash having at least its 32
    bytes). *)
Theorem X9_packed_call_data_resolves_by_selector
    (hash256 : list byte → list byte)
    (argsPack : Arguments → list Value → result (list byte))
    (abi : ABI) (order : list (string * Mccmod))
    (name : string) (m : Mccmod) (args : list Value) (data : list byte) :
  (∀ bs, length (hash256 bs) = 32) →
  range_order (Mccmods abi) order →
  name ≠ EmptyString →
  Mccmods abi !! name = Some m →
  Pack hash256 argsPack abi name args = Ok data →
  ∃ m', MccmodById hash256 order data = Ok m' ∧
        Id hash256 m' = Id hash256 m ∧
        ∃ k, Mccmods abi !! k = Some m'.
Proof.
  intros Hhash Horder Hname Hm Hpack.
  rewrite (Pack_mccmod _ _ _ _ _ m Hname Hm) in Hpack.
  destruct (argsPack (Inputs m) args) as [arguments|e]; [|discriminate].
  injection Hpack as <-.
  pose proof (Id_length hash256 m Hhash) as Hlen.
  assert (take 4 (Id hash256 m ++ arguments) = Id hash256 m) as Htake.
  { by rewrite take_app_length'. }
  unfold MccmodById.
  rewrite decide_False by (rewrite length_app; lia). rewrite Htake.
  destruct (range_find hash256 (Id hash256 m) order) as [m'|] eqn:Hf.
  - apply range_find_Some in Hf as [[k Hin] Hid].
    exists m'. split_and!; [done..|].
    exists k. by apply (range_order_elem abi order).
  - exfalso. eapply (range_find_None hash256 _ order Hf name m); [|done].
    by apply (range_order_elem abi order).
Qed.

Lemma X9_packed_call_data_witness :
  ∃ m', MccmodById prefix_hash (map_to_list (Mccmods example_ABI))
          ([x73; x65; x6e; x64] ++ word 7) = Ok m' ∧
        Id prefix_hash m' = Id prefix_hash send_mccmod ∧
        ∃ k, Mccmods example_ABI !! k = Some m'.
Proof.
  apply (X9_packed_call_data_resolves_by_selector prefix_hash ArgumentsPack
           example_ABI _ "send" send_mccmod [VInt 7]).
  - apply prefix_hash_length.
  - unfold range_order. reflexivity.
  - discriminate.
  - vm_compute. reflexivity.
  - vm_compute. reflexivity.
Defined.

(** X10: the call data packed for a registered method is never accepted by
    [Unpack] or [UnpackIntoMap] under that name: with the 4 bytes of the
    selector ahead of arguments that fill whole 32-byte slots, its length
    is not a multiple of 32, and both return the improperly-formatted-output
    error before any decoding. *)
Theorem X10_unpack_rejects_packed_call_data
    (hash256 : list byte → list byte)
    (argsPack : Arguments → list Value → result (list byte))
    (argsUnpack : Arguments → list byte → result (list Value))
    (argsUnpackIntoMap :
       gmap string Value → Arguments → list byte → result (gmap string Value))
    (abi : ABI) (name : string) (m : Mccmod) (args : list Value)
    (data : list byte) :
  (∀ bs, length (hash256 bs) = 32) →
  (∀ arguments, argsPack (Inputs m) args = Ok arguments →
                length arguments mod 32 = 0) →
  name ≠ EmptyString →
  Mccmods abi !! name = Some m →
  Pack hash256 argsPack abi name args = Ok data →
  Unpack argsUnpack abi name data = Err (ErrImproperOutput data) ∧
  ∀ v, UnpackIntoMap argsUnpackIntoMap abi v name data
       = Err (ErrImproperOutput data).
Proof.
  intros Hhash Hslots Hname Hm Hpack.
  rewrite (Pack_mccmod _ _ _ _ _ m Hname Hm) in Hpack.
  destruct (argsPack (Inputs m) args) as [arguments|e] eqn:Hargs; [|discriminate].
  injection Hpack as <-.
  pose proof (Id_length hash256 m Hhash) as Hlen.
  specialize (Hslots arguments eq_refl).
  assert (length (Id hash256 m ++ arguments) mod 32 = 4) as Hmod.
  { rewrite length_app, Hlen.
    rewrite <- Nat.Div0.add_mod_idemp_r, Hslots. reflexivity. }
  destruct (Unpack_mccmod argsUnpack argsUnpackIntoMap abi name
              (Id hash256 m ++ arguments) m) as [H1 H2]; [|done|].
  { intros Heq. rewrite Heq in Hmod. discriminate Hmod. }
  split; [rewrite H1 | intros v; rewrite H2]; rewrite decide_True; try done;
    rewrite Hmod; discriminate.
Qed.

Lemma X10_unpack_rejects_witness :
  Unpack ArgumentsUnpack example_ABI "send" ([x73; x65; x6e; x64] ++ word 7)
    = Err (ErrImproperOutput ([x73; x65; x6e; x64] ++ word 7)).
Proof.
  destruct (X10_unpack_rejects_packed_call_data prefix_hash ArgumentsPack
              ArgumentsUnpack ArgumentsUnpackIntoMap example_ABI "send"
              send_mccmod [VInt 7] ([x73; x65; x6e; x64] ++ word 7)) as [H _].
  - apply prefix_hash_length.
  - intros arguments Ha. vm_compute in Ha. injection Ha as <-. reflexivity.
  - discriminate.
  - vm_compute. reflexivity.
  - vm_compute. reflexivity.
  - exact H.
Defined.

(** ** Lookup of events by topic *)

Lemma range_find_event_Some (eventId : Event → Hash) (topic : Hash)
    (entries : list (string * Event)) (ev : Event) :
  range_find_event eventId topic entries = Some ev →
  (∃ k, (k, ev) ∈ entries) ∧ Bytes (eventId ev) = Bytes topic.
Proof.
  induction entries as [|[k ev'] entries IH]; simpl; [done|].
  case_decide as Hid.
  - intros [= ->]. split; [exists k; apply elem_of_cons; by left | done].
  - intros [[k' Hin] ?]%IH. split; [exists k'; apply elem_of_cons; by right | done].
Qed.

Lemma range_find_event_None (eventId : Event → Hash) (topic : Hash)
    (entries : list (string * Event)) :
  range_find_event eventId topic entries = None →
  ∀ k ev, (k, ev) ∈ entries → Bytes (eventId ev) ≠ Bytes topic.
Proof.
  induction entries as [|[k' ev'] entries IH]; simpl; intros Hf k ev Hin.
  - by apply elem_of_nil in Hin.
  - case_decide as Hid; [done|].
    apply elem_of_cons in Hin as [[= -> ->] | Hin]; [done | by eapply IH].
Qed.

(** X11: the lookup of an event by topic returns a registered event whose
    id has the bytes of the topic when there is one, the first such event
    in the order the map is ranged over, and otherwise the error naming the
    topic, in which case no registered event has that id. *)
Theorem X11_event_lookup_by_topic
    (eventId : Event → Hash) (abi : ABI)
    (order : list (string * Event)) (topic : Hash) :
  range_order (Events abi) order →
  match EventByID eventId order topic with
  | EventFound ev =>
      (∃ name, Events abi !! name = Some ev) ∧ Bytes (eventId ev) = Bytes topic
  | NoEventWithId t =>
      t = topic ∧
      ∀ name ev, Events abi !! name = Some ev → Bytes (eventId ev) ≠ Bytes topic
  end ∧
  (∀ pre k ev post,
     order = pre ++ (k, ev) :: post →
     Forall (λ e : string * Event, Bytes (eventId e.2) ≠ Bytes topic) pre →
     Bytes (eventId ev) = Bytes topic →
     EventByID eventId order topic = EventFound ev).
Proof.
  intros Horder. unfold range_order in Horder. split.
  - unfold EventByID.
    destruct (range_find_event eventId topic order) as [ev|] eqn:Hf.
    + apply range_find_event_Some in Hf as [[k Hin] Hid]. split; [|done].
      exists k. rewrite Horder in Hin. by apply elem_of_map_to_list in Hin.
    + split; [done|]. intros k ev Hev.
      eapply range_find_event_None; [done|].
      rewrite Horder. by apply elem_of_map_to_list.
  - intros pre k ev post -> Hpre Hev. unfold EventByID.
    clear Horder. induction Hpre as [|[k' ev'] pre Hne _ IH]; simpl.
    + by rewrite decide_True.
    + simpl in Hne. by rewrite decide_False.
Qed.

Lemma X11_event_lookup_witness :
  let topic_of := λ ev : Event,
    mkHash (prefix_hash (bytes_of_string (EvName ev)))
           (prefix_hash_length (bytes_of_string (EvName ev))) in
  let unknown := mkHash (replicate 32 xff) eq_refl in
  EventByID topic_of (map_to_list (Events example_ABI)) (topic_of sent_event)
    = EventFound sent_event ∧
  EventByID topic_of (map_to_list (Events example_ABI)) unknown
    = NoEventWithId unknown.
Proof.
  intros topic_of unknown.
  destruct (X11_event_lookup_by_topic topic_of example_ABI
              (map_to_list (Events example_ABI)) (topic_of sent_event))
    as [H1 _]; [unfold range_order; reflexivity|].
  destruct (X11_event_lookup_by_topic topic_of example_ABI
              (map_to_list (Events example_ABI)) unknown)
    as [H2 _]; [unfold range_order; reflexivity|].
  split.
  - clear H1 H2. vm_compute. reflexivity.
  - destruct (EventByID topic_of (map_to_list (Events example_ABI)) unknown)
      as [ev|t] eqn:Hr.
    + vm_compute in Hr. discriminate Hr.
    + destruct H2 as [-> _]. reflexivity.
Defined.

(** ** Loading, then packing *)



(** ** The order of the checks *)

(** X13: the check for empty data comes before the lookup of the name, and
    the lookup before the check of the length against 32: on empty data
    [Unpack] and [UnpackIntoMap] return the empty-output error for every
    name, registered or not; on data of any other length a name in neither
    map gives the not-found error, also when the length is not a multiple
    of 32. *)
Theorem X13_order_of_unpack_checks
    (argsUnpack : Arguments → list byte → result (list Value))
    (argsUnpackIntoMap :
       gmap string Value → Arguments → list byte → result (gmap string Value))
    (abi : ABI) (name : string) :
  (Unpack argsUnpack abi name [] = Err ErrEmptyOutput ∧
   ∀ v, UnpackIntoMap argsUnpackIntoMap abi v name [] = Err ErrEmptyOutput) ∧
  (∀ data, data ≠ [] →
     Mccmods abi !! name = None → Events abi !! name = None →
     Unpack argsUnpack abi name data = Err ErrNotLocated ∧
     ∀ v, UnpackIntoMap argsUnpackIntoMap abi v name data = Err ErrNotLocated).
Proof.
  split.
  - apply Unpack_empty.
  - intros data Hd Hm He. by apply Unpack_absent.
Qed.

Lemma X13_order_of_unpack_checks_witness :
  Unpack ArgumentsUnpack example_ABI "burn" [] = Err ErrEmptyOutput ∧
  Unpack ArgumentsUnpack example_ABI "burn" [x00] = Err ErrNotLocated.
Proof.
  destruct (X13_order_of_unpack_checks ArgumentsUnpack ArgumentsUnpackIntoMap
              example_ABI "burn") as [[H1 _] H2].
  split; [exact H1|].
  destruct (H2 [x00]) as [H _]; [discriminate | vm_compute; reflexivity ..|].
  exact H.
Defined.

(** ** Selectors of repeated method names *)

Lemma Mccmods_snoc (abi : ABI) (pre post : list Field) (field : Field) :
  is_function field →
  Mccmods (UnmarshalJSON abi (pre ++ field :: post))
  = foldl (register build_mccmod)
      (register build_mccmod (Mccmods (UnmarshalJSON abi pre)) (FName field, field))
      (declared (filter is_function post)).
Proof.
  intros Hf. unfold UnmarshalJSON. rewrite foldl_app. simpl foldl.
  rewrite (Mccmods_foldl post). f_equal.
  unfold UnmarshalJSON_field.
  rewrite decide_False by by apply is_function_not_constructor.
  by rewrite decide_True.
Qed.

Lemma Mccmods_snoc_key (abi : ABI) (pre post : list Field) (field : Field) :
  is_function field →
  let key := resolve_name (Mccmods (UnmarshalJSON abi pre)) (FName field) in
  Mccmods (UnmarshalJSON abi (pre ++ field :: post)) !! key
    = Some (build_mccmod key field).
Proof.
  intros Hf key. rewrite Mccmods_snoc by done.
  apply foldl_register_lookup_old. unfold register. apply lookup_insert_eq.
Qed.

(** The second name tried is the first one with [0] appended; it is taken
    when the bare name is a key and the name with [0] is not. *)
Lemma resolve_name_second {V} (m : gmap string V) (base : string) :
  is_Some (m !! base) → m !! (base ++ "0")%string = None →
  resolve_name m base = (base ++ "0")%string.
Proof.
  intros Hbase Hfree.
  destruct (resolve_name_spec m base) as (k & -> & Hnone & Hsome).
  destruct k as [|[|k]].
  - simpl in Hnone. rewrite Hnone in Hbase. by destruct Hbase.
  - reflexivity.
  - specialize (Hsome 1 ltac:(lia)). simpl in Hsome.
    rewrite overloaded_0, Hfree in Hsome. by destruct Hsome.
Qed.

Lemma resolve_name_first {V} (m : gmap string V) (base : string) :
  m !! base = None → resolve_name m base = base.
Proof.
  intros Hfree. unfold resolve_name. rewrite decide_False; [done|].
  rewrite Hfree. by intros [? ?].
Qed.

(** C9 (counterexample): behind a method declared [foo0], the second of two
    methods declared [foo] with the same inputs is registered as [foo1],
    with the signature [foo1(uint256)], not [foo0(uint256)]; and for a hash
    whose values start with the same 4 bytes the two methods registered for
    a document with just the two entries declared [foo] have different
    signatures and the same selector. *)
Lemma C9_duplicates_foo1_and_equal_selectors :
  (let abi := UnmarshalJSON zero_ABI clashing_twin_fields in
   Mccmods abi !! "foo"%string = Some (build_mccmod "foo" foo_first) ∧
   Mccmods abi !! "foo1"%string = Some (build_mccmod "foo1" foo_second) ∧
   Sig (build_mccmod "foo1" foo_second) = "foo1(uint256)"%string ∧
   Mccmods abi !! "foo0"%string = Some (build_mccmod "foo0" foo0_uint)) ∧
  (let abi := UnmarshalJSON zero_ABI twin_fields in
   Mccmods abi !! "foo"%string = Some (build_mccmod "foo" foo_first) ∧
   Mccmods abi !! "foo0"%string = Some (build_mccmod "foo0" foo_second) ∧
   Sig (build_mccmod "foo" foo_first) ≠ Sig (build_mccmod "foo0" foo_second) ∧
   Id constant_hash (build_mccmod "foo" foo_first)
     = Id constant_hash (build_mccmod "foo0" foo_second)).
Proof.
  split; split_and!; try (vm_compute; reflexivity).
  vm_compute. discriminate.
Qed.

(** C9 (amended): the registered method carries its registry key as its
    name: for every key of a loaded registry, the signature of the method
    under it is [key(...)] over its input types and its selector the first 4
    bytes of the hash of that signature, so the disambiguated name, not the
    declared one, determines the selector.  When two method entries are
    declared [foo] with the same inputs, [foo] is free when the first is
    loaded and [foo0] is free when the second is loaded, the second is
    registered as [foo0] with the signature [foo0(...)] and the selector
    taken from the hash of [foo0(...)], and the signatures of the two
    differ. *)
Theorem C9_duplicate_selector_from_suffixed_name
    (hash256 : list byte → list byte) (abi : ABI)
    (pre mid post : list Field) (f1 f2 : Field) :
  let foo := FName f1 in
  let foo0 := (foo ++ "0")%string in
  let types := map ArgType (FInputs f1) in
  let registry := UnmarshalJSON abi (pre ++ f1 :: mid ++ f2 :: post) in
  (∀ key m, Mccmods registry !! key = Some m →
     Name m = key ∧
     Sig m = spec_signature key (map ArgType (Inputs m)) ∧
     Id hash256 m = spec_selector hash256 key (map ArgType (Inputs m))) ∧
  (is_function f1 → is_function f2 →
   FName f2 = FName f1 → FInputs f2 = FInputs f1 →
   Mccmods (UnmarshalJSON abi pre) !! foo = None →
   Mccmods (UnmarshalJSON abi (pre ++ f1 :: mid)) !! foo0 = None →
   Mccmods registry !! foo = Some (build_mccmod foo f1) ∧
   Mccmods registry !! foo0 = Some (build_mccmod foo0 f2) ∧
   Sig (build_mccmod foo f1) = spec_signature foo types ∧
   Sig (build_mccmod foo0 f2) = spec_signature foo0 types ∧
   Id hash256 (build_mccmod foo f1) = spec_selector hash256 foo types ∧
   Id hash256 (build_mccmod foo0 f2) = spec_selector hash256 foo0 types ∧
   Sig (build_mccmod foo f1) ≠ Sig (build_mccmod foo0 f2)).
Proof.
  intros foo foo0 types registry. split.
  - intros key m Hm. unfold registry, UnmarshalJSON in Hm.
    rewrite Mccmods_foldl in Hm. simpl in Hm.
    apply foldl_register_sound in Hm as [Hm | (e & j & _ & _ & ->)].
    { by rewrite lookup_empty in Hm. }
    split_and!; [done | by rewrite Sig_spec |].
    unfold Id, spec_selector, utf8, bytes_of_string. by rewrite Sig_spec.
  - intros Hf1 Hf2 Hname Hinputs Hfree Hfree0.
    assert (Mccmods (UnmarshalJSON abi (pre ++ f1 :: mid)) !! foo
            = Some (build_mccmod foo f1)) as H1.
    { pose proof (Mccmods_snoc_key abi pre mid f1 Hf1) as H. cbv zeta in H.
      fold foo in H. by rewrite (resolve_name_first _ _ Hfree) in H. }
    assert (Mccmods registry !! foo0 = Some (build_mccmod foo0 f2)) as H2.
    { pose proof (Mccmods_snoc_key abi (pre ++ f1 :: mid) post f2 Hf2) as H.
      cbv zeta in H. rewrite Hname in H. fold foo in H.
      rewrite (resolve_name_second _ foo) in H by (by rewrite ?H1).
      unfold registry. by rewrite <- (assoc_L (++)) in H. }
    assert (Mccmods registry !! foo = Some (build_mccmod foo f1)) as H1'.
    { unfold registry.
      replace (pre ++ f1 :: mid ++ f2 :: post) with ((pre ++ f1 :: mid) ++ f2 :: post)
        by (by rewrite <- (assoc_L (++))).
      rewrite Mccmods_snoc by done. apply foldl_register_lookup_old.
      by apply register_lookup_old. }
    assert (Sig (build_mccmod foo f1) = spec_signature foo types) as Hs1.
    { by rewrite Sig_spec. }
    assert (Sig (build_mccmod foo0 f2) = spec_signature foo0 types) as Hs2.
    { rewrite Sig_spec. simpl. by rewrite Hinputs. }
    split_and!; try done.
    + unfold Id, spec_selector, utf8, bytes_of_string. by rewrite Hs1.
    + unfold Id, spec_selector, utf8, bytes_of_string. by rewrite Hs2.
    + rewrite Hs1, Hs2. apply spec_signature_suffix_ne.
Qed.

Lemma C9_duplicate_selector_witness :
  let registry := UnmarshalJSON zero_ABI twin_fields_behind_foo7 in
  Mccmods registry !! "foo"%string = Some (build_mccmod "foo" foo_first) ∧
  Mccmods registry !! "foo0"%string = Some (build_mccmod "foo0" foo_second) ∧
  Sig (build_mccmod "foo0" foo_second) = "foo0(uint256)"%string ∧
  Id prefix_hash (build_mccmod "foo0" foo_second) = [x66; x6f; x6f; x30] ∧
  Sig (build_mccmod "foo" foo_first) ≠ Sig (build_mccmod "foo0" foo_second).
Proof.
  intros registry.
  destruct (C9_duplicate_selector_from_suffixed_name prefix_hash zero_ABI
              [foo7_uint] [foo_logged] [] foo_first foo_second) as [_ H].
  destruct H as (H1 & H2 & _ & Hs2 & _ & Hid & Hne).
  - left. reflexivity.
  - left. reflexivity.
  - reflexivity.
  - reflexivity.
  - vm_compute. reflexivity.
  - vm_compute. reflexivity.
  - split_and!.
    + exact H1.
    + exact H2.
    + etrans; [exact Hs2 | vm_compute; reflexivity].
    + etrans; [exact Hid | vm_compute; reflexivity].
    + exact Hne.
Defined.

